(** * Memory promotion of [alloc_box] cells

    A shallow embedding of [lib/SIL/Passes/MemoryPromotion.cpp]: the
    aggregate flattener [getNumElements], the use collector
    [collectAllocationUses], the escape seeding of [ElementPromotion]
    and the driver [performSILMemoryPromotion], with the properties the
    design document states about them.

    The pass mutates a [SILModule] in place; here the module is passed
    and returned.  A function that can trip an assertion (a bucket index
    out of range, a pointer that is not an address) returns an [option],
    [None] standing for the failed assertion. *)

From Stdlib Require Import ZArith List Lia Bool.
From stdpp Require Import base option list gmap strings relations.

Local Open Scope Z_scope.

(** ** Machine integers

    The pass counts elements and indexes buckets with the C++ type
    [unsigned]: a 32-bit integer whose arithmetic wraps. *)

Definition UINT_WIDTH : Z := 32.
Definition UINT_MOD : Z := 2 ^ UINT_WIDTH.

Definition wrap (z : Z) : Z := z mod UINT_MOD.

(** ** Types

    Modelled from the spec: the declared-type system is an external
    collaborator of the pass (section 6).  Only the shapes the pass
    inspects are kept: tuples with their component types, structs with
    their member declarations, by-reference ([LValueType]) types, and
    every other type as an opaque name. *)

Inductive Decl (T : Type) : Type :=
| VarDecl (Ty : T)
| OtherDecl (Name : string).
Arguments VarDecl {T} Ty.
Arguments OtherDecl {T} Name.

#[local] Unset Elimination Schemes.
Inductive CanType : Type :=
| TupleType (Fields : list CanType)
| StructType (Name : string) (Members : list (Decl CanType))
| LValueType (ObjectTy : CanType)
| OtherType (Name : string).
#[local] Set Elimination Schemes.

Record SILType : Type := mkSILType {
  getSwiftRValueType : CanType;
  isAddress : bool
}.

Definition getObjectType (T : SILType) : SILType :=
  mkSILType (getSwiftRValueType T) false.

Definition getAddressType (T : SILType) : SILType :=
  mkSILType (getSwiftRValueType T) true.

(** Modelled from the spec: the callee-signature query of section 6,
    [{ hasIndirectReturn, parameterIsByReference(index) }], with the
    argument types it is answered from. *)
Record SILFunctionTypeInfo : Type := mkFTI {
  hasIndirectReturn : bool;
  getSwiftArgumentType : Z -> CanType
}.

Definition is_LValueType (T : CanType) : bool :=
  match T with LValueType _ => true | _ => false end.

(** ** Instructions, blocks, functions, modules

    Modelled from the spec: the SSA instruction set, its operand and
    use-list representation and the control-flow graph are external
    (section 6).  An instruction object is identified by its address
    [InstPtr]; a value is a result of an instruction. *)

Definition InstID := nat.
Definition BlockID := nat.

Record SILValue : Type := mkSILValue {
  getDef : InstID;
  getResultNumber : Z;
  getType : SILType
}.

Inductive InstKind : Type :=
| AllocBoxInst (ElementType : SILType)
| DeallocStackInst (Op : SILValue)
| RetainInst (Op : SILValue)
| ReleaseInst (Op : SILValue)
| DeallocRefInst (Op : SILValue)
| LoadInst (Op : SILValue)
| StoreInst (Src Dest : SILValue)
| ApplyInst (Callee : SILValue) (Args : list SILValue)
| PartialApplyInst (Callee : SILValue) (Args : list SILValue)
| BranchInst (DestBB : BlockID) (Args : list SILValue)
| CondBranchInst (Cond : SILValue) (TrueBB FalseBB : BlockID)
| ReturnInst (Op : SILValue)
| OtherInst (Name : string) (Ops : list SILValue).

Record SILInstruction : Type := mkInst {
  InstPtr : InstID;
  getParent : BlockID;
  getKind : InstKind
}.

(** The operands of an instruction, in operand-number order.  An
    [alloc_box] has none; a store has the stored value at 0 and the
    destination at 1; a call has the callee at 0 and argument [i] at
    [i + 1]. *)
Definition getAllOperands (I : SILInstruction) : list SILValue :=
  match getKind I with
  | AllocBoxInst _ => []
  | DeallocStackInst Op | RetainInst Op | ReleaseInst Op
  | DeallocRefInst Op | LoadInst Op | ReturnInst Op => [Op]
  | StoreInst Src Dest => [Src; Dest]
  | ApplyInst Callee Args | PartialApplyInst Callee Args => Callee :: Args
  | BranchInst _ Args => Args
  | CondBranchInst Cond _ _ => [Cond]
  | OtherInst _ Ops => Ops
  end.

Definition getOperand (I : SILInstruction) (N : nat) : option SILValue :=
  getAllOperands I !! N.

Definition isa_DeallocStackInst (I : SILInstruction) : bool :=
  match getKind I with DeallocStackInst _ => true | _ => false end.
Definition isa_RetainInst (I : SILInstruction) : bool :=
  match getKind I with RetainInst _ => true | _ => false end.
Definition isa_ReleaseInst (I : SILInstruction) : bool :=
  match getKind I with ReleaseInst _ => true | _ => false end.
Definition isa_DeallocRefInst (I : SILInstruction) : bool :=
  match getKind I with DeallocRefInst _ => true | _ => false end.
Definition isa_LoadInst (I : SILInstruction) : bool :=
  match getKind I with LoadInst _ => true | _ => false end.
Definition isa_StoreInst (I : SILInstruction) : bool :=
  match getKind I with StoreInst _ _ => true | _ => false end.
(** [FunctionInst] is the common base of [apply] and [partial_apply]. *)
Definition isa_FunctionInst (I : SILInstruction) : bool :=
  match getKind I with
  | ApplyInst _ _ | PartialApplyInst _ _ => true
  | _ => false
  end.
Definition dyn_cast_AllocBoxInst (I : SILInstruction) : option SILType :=
  match getKind I with AllocBoxInst ElementType => Some ElementType | _ => None end.

Record SILBasicBlock : Type := mkBlock {
  BlockPtr : BlockID;
  getInsts : list SILInstruction
}.

Record SILFunction : Type := mkFunction {
  getName : string;
  getBlocks : list SILBasicBlock
}.

Record Diagnostic : Type := mkDiagnostic {
  DiagInst : InstID;
  DiagText : string
}.

(** Modelled from the spec: a module is its functions, the type queries
    it answers ([SILType::isAddressOnly(T, M)],
    [T.getFunctionTypeInfo(M)]) and the diagnostics reported through it
    so far. *)
Record SILModule : Type := mkModule {
  isAddressOnly : CanType -> bool;
  getFunctionTypeInfo : SILType -> SILFunctionTypeInfo;
  getFunctions : list SILFunction;
  getDiags : list Diagnostic
}.

Definition blockInsts (Fn : SILFunction) : list SILInstruction :=
  flat_map getInsts (getBlocks Fn).

Definition allInsts (M : SILModule) : list SILInstruction :=
  flat_map blockInsts (getFunctions M).

(** *** Use lists

    Modelled from the spec: use-list traversal,
    [UsesOf(Value) -> sequence of (UserInstruction, OperandIndex)]
    (section 6).  A use is an operand slot of a user instruction, and the
    use list of a value is the inverse of the operand relation.  It is
    enumerated here in program order; none of the properties below
    depends on the order. *)
Record Operand : Type := mkOperand {
  getUser : SILInstruction;
  getOperandNumber : Z
}.

Fixpoint operandUsesFrom (P : SILValue -> bool) (I : SILInstruction)
         (N : Z) (Ops : list SILValue) : list Operand :=
  match Ops with
  | [] => []
  | Op :: Rest =>
      (if P Op then [mkOperand I N] else []) ++ operandUsesFrom P I (N + 1) Rest
  end.

Definition operandUses (P : SILValue -> bool) (I : SILInstruction) : list Operand :=
  operandUsesFrom P I 0 (getAllOperands I).

Definition sameValue (V W : SILValue) : bool :=
  Nat.eqb (getDef V) (getDef W) && (getResultNumber V =? getResultNumber W).

(** Modelled from the spec: [SILValue::getUses], the uses of one result
    of an instruction. *)
Definition getUses (M : SILModule) (V : SILValue) : list Operand :=
  flat_map (operandUses (sameValue V)) (allInsts M).

(** Modelled from the spec: the uses of every result of an instruction,
    and [ValueBase::use_empty], which says that there is none. *)
Definition ValueBase_uses (M : SILModule) (D : InstID) : list Operand :=
  flat_map (operandUses (fun W => Nat.eqb D (getDef W))) (allInsts M).

Definition use_empty (M : SILModule) (I : SILInstruction) : bool :=
  match ValueBase_uses M (InstPtr I) with [] => true | _ => false end.

(** Modelled from the spec: the erase-instruction primitive
    ([SILInstruction::eraseFromParent]), which unlinks an instruction
    object from its block; [erasePtrs] unlinks several. *)
Definition erasePtrs (E : list InstID) (M : SILModule) : SILModule :=
  mkModule (isAddressOnly M) (getFunctionTypeInfo M)
    (map (fun Fn =>
            mkFunction (getName Fn)
              (map (fun BB =>
                      mkBlock (BlockPtr BB)
                        (filter (fun J => InstPtr J ∉ E) (getInsts BB)))
                   (getBlocks Fn)))
         (getFunctions M))
    (getDiags M).

Definition eraseFromParent (M : SILModule) (I : SILInstruction) : SILModule :=
  erasePtrs [InstPtr I] M.

(** Modelled from the spec: [SILValue(ABI, 1)], the address result of
    an [alloc_box], of type [$*ElementType]. *)
Definition boxAddress (ABI : SILInstruction) (ElementType : SILType) : SILValue :=
  mkSILValue (InstPtr ABI) 1 (getAddressType ElementType).

(** ** The pass *)

(** [isByRefOrIndirectReturn]; [None] when the call has no operand 0. *)
Definition isByRefOrIndirectReturn (M : SILModule) (Apply : SILInstruction)
           (ArgumentNumber : Z) : option bool :=
  Callee ← getOperand Apply 0;
  let FnTy := getType Callee in
  let FTI := getFunctionTypeInfo M FnTy in
  if (ArgumentNumber =? 0) && hasIndirectReturn FTI then Some true
  else
    let ArgTy := getSwiftArgumentType FTI ArgumentNumber in
    Some (is_LValueType ArgTy).

Inductive UseKind : Type := Load | Store | ByrefUse | Escape.

Abbreviation ElementUses := (list (SILInstruction * UseKind)).

(** [getNumElements]: a tuple adds up its fields, a struct that is not
    address-only adds up its [VarDecl] members, anything else is one
    element.  [NumElements] is an [unsigned] accumulator. *)
Fixpoint getNumElements (T : CanType) (M : SILModule) {struct T} : Z :=
  match T with
  | TupleType Fields =>
      fold_left (fun NumElements Elt => wrap (NumElements + getNumElements Elt M))
                Fields 0
  | StructType _ Members =>
      if isAddressOnly M T then 1
      else
        fold_left (fun NumElements D =>
                     match D with
                     | VarDecl Ty => wrap (NumElements + getNumElements Ty M)
                     | OtherDecl _ => NumElements
                     end)
                  Members 0
  | _ => 1
  end.

Module EscapeKind.
Inductive t : Type := Unknown | Yes | No.
End EscapeKind.

Record LiveOutBlockState : Type := mkLiveOut {
  EscapeInfo : EscapeKind.t
}.

Definition LiveOutBlockState_default : LiveOutBlockState :=
  mkLiveOut EscapeKind.Unknown.

Record ElementPromotion : Type := mkElementPromotion {
  EP_TheAllocBox : SILInstruction;
  EP_Uses : ElementUses;
  EP_PerBlockInfo : gmap BlockID LiveOutBlockState;
  EP_HasAnyEscape : bool
}.

Definition withEscapeInfo (S : LiveOutBlockState) (K : EscapeKind.t)
  : LiveOutBlockState :=
  {| EscapeInfo := K |}.

(** [PerBlockInfo[BB].EscapeInfo = K]: [operator[]] default-constructs a
    missing entry, then the field of the entry is assigned. *)
Definition setEscapeInfo (PBI : gmap BlockID LiveOutBlockState) (BB : BlockID)
           (K : EscapeKind.t) : gmap BlockID LiveOutBlockState :=
  let Entry := default LiveOutBlockState_default (PBI !! BB) in
  <[BB := withEscapeInfo Entry K]> PBI.

(** [PerBlockInfo.clear()]. *)
Definition DenseMap_clear (PBI : gmap BlockID LiveOutBlockState)
  : gmap BlockID LiveOutBlockState := ∅.

(** The constructor of [ElementPromotion]: clear the shared map, then
    mark the parent block of every [Escape] use. *)
Definition ElementPromotion_new (TheAllocBox : SILInstruction) (Uses : ElementUses)
           (PerBlockInfo : gmap BlockID LiveOutBlockState) : ElementPromotion :=
  fold_left
    (fun EP Use =>
       match Use.2 with
       | Escape =>
           mkElementPromotion (EP_TheAllocBox EP) (EP_Uses EP)
             (setEscapeInfo (EP_PerBlockInfo EP) (getParent Use.1) EscapeKind.Yes)
             true
       | _ => EP
       end)
    Uses
    (mkElementPromotion TheAllocBox Uses (DenseMap_clear PerBlockInfo) false).

(** [ElementPromotion::doIt]: a loop over the uses with a switch on the
    kind, every case of which is empty. *)
Definition doIt (EP : ElementPromotion) (M : SILModule) : SILModule :=
  fold_left
    (fun M Use =>
       match Use.2 with
       | Load => M
       | Store => M
       | ByrefUse => M
       | Escape => M
       end)
    (EP_Uses EP) M.

(** [Uses[Idx].push_back(U)]; [None] when [Idx] is out of range. *)
Definition push_back_at (Uses : list ElementUses) (Idx : Z)
           (U : SILInstruction * UseKind) : option (list ElementUses) :=
  match Uses !! Z.to_nat Idx with
  | Some Bucket => Some (<[Z.to_nat Idx := Bucket ++ [U]]> Uses)
  | None => None
  end.

(** The loop of [addElementUses] with [Trips] iterations left. *)
Fixpoint addElementUses_loop (Trips : nat) (i : Z) (Uses : list ElementUses)
         (BaseElt : Z) (User : SILInstruction) (Kind : UseKind)
  : option (list ElementUses) :=
  match Trips with
  | O => Some Uses
  | S Trips' =>
      Uses' ← push_back_at Uses (wrap (BaseElt + i)) (User, Kind);
      addElementUses_loop Trips' (wrap (i + 1)) Uses' BaseElt User Kind
  end.

(** [addElementUses]: [for (i = 0, e = getNumElements(..); i != e; ++i)]
    runs [e] times. *)
Definition addElementUses (M : SILModule) (Uses : list ElementUses) (BaseElt : Z)
           (UseTy : SILType) (User : SILInstruction) (Kind : UseKind)
  : option (list ElementUses) :=
  let e := getNumElements (getSwiftRValueType UseTy) M in
  addElementUses_loop (Z.to_nat e) 0 Uses BaseElt User Kind.

(** The body of the loop of [collectAllocationUses] for one use. *)
Definition collectUse (M : SILModule) (PointeeType : SILType) (BaseElt : Z)
           (Uses : list ElementUses) (UI : Operand) : option (list ElementUses) :=
  let User := getUser UI in
  if isa_DeallocStackInst User || isa_RetainInst User
     || isa_ReleaseInst User || isa_DeallocRefInst User
  then Some Uses
  else if isa_LoadInst User
  then addElementUses M Uses BaseElt PointeeType User Load
  else if isa_StoreInst User && (getOperandNumber UI =? 1)
  then addElementUses M Uses BaseElt PointeeType User Store
  else
    ByRef ← (if isa_FunctionInst User
             then isByRefOrIndirectReturn M User (wrap (getOperandNumber UI - 1))
             else Some false);
    if (ByRef : bool)
    then addElementUses M Uses BaseElt PointeeType User ByrefUse
    else addElementUses M Uses BaseElt PointeeType User Escape.

Fixpoint collectUses (M : SILModule) (PointeeType : SILType) (BaseElt : Z)
         (Uses : list ElementUses) (UIs : list Operand) : option (list ElementUses) :=
  match UIs with
  | [] => Some Uses
  | UI :: Rest =>
      Uses' ← collectUse M PointeeType BaseElt Uses UI;
      collectUses M PointeeType BaseElt Uses' Rest
  end.

(** [collectAllocationUses]; [None] when an assertion fails. *)
Definition collectAllocationUses (M : SILModule) (Pointer : SILValue)
           (Uses : list ElementUses) (BaseElt : Z) : option (list ElementUses) :=
  if negb (isAddress (getType Pointer)) then None
  else
    let PointeeType := getObjectType (getType Pointer) in
    collectUses M PointeeType BaseElt Uses (getUses M Pointer).

(** [Uses.resize(N)] on a fresh vector. *)
Definition freshBuckets (N : Z) : list ElementUses := replicate (Z.to_nat N) [].

(** The loop of [optimizeAllocBox] over the buckets. *)
Fixpoint promoteElements (ABI : SILInstruction) (Buckets : list ElementUses)
         (PerBlockInfo : gmap BlockID LiveOutBlockState) (M : SILModule) : SILModule :=
  match Buckets with
  | [] => M
  | Elt :: Rest =>
      let EP := ElementPromotion_new ABI Elt PerBlockInfo in
      promoteElements ABI Rest (EP_PerBlockInfo EP) (doIt EP M)
  end.

(** [optimizeAllocBox]: size the buckets, collect the uses of the
    address, then process each element. *)
Definition optimizeAllocBox (M : SILModule) (ABI : SILInstruction)
           (ElementType : SILType) : option SILModule :=
  let Uses := freshBuckets (getNumElements (getSwiftRValueType ElementType) M) in
  Uses ← collectAllocationUses M (boxAddress ABI ElementType) Uses 0;
  let PerBlockInfo : gmap BlockID LiveOutBlockState := ∅ in
  Some (promoteElements ABI Uses PerBlockInfo M).

(** The [while (I != E)] loop over one block.  [Todo] is the part of the
    block's instruction list from the iterator on: the iterator has
    moved past an [alloc_box] before it is erased. *)
Fixpoint scanBlock (Todo : list SILInstruction) (M : SILModule) : option SILModule :=
  match Todo with
  | [] => Some M
  | Inst :: Rest =>
      match dyn_cast_AllocBoxInst Inst with
      | None => scanBlock Rest M
      | Some ElementType =>
          M1 ← optimizeAllocBox M Inst ElementType;
          let M2 := if use_empty M1 Inst then eraseFromParent M1 Inst else M1 in
          scanBlock Rest M2
      end
  end.

(** The loops over the blocks of a function and over the functions of
    the module.  They walk the block and function lists the module has
    on entry: nothing is unlinked from a block before its scan starts,
    since an instruction object is in one block only. *)
Fixpoint scanBlocks (BBs : list SILBasicBlock) (M : SILModule) : option SILModule :=
  match BBs with
  | [] => Some M
  | BB :: Rest => M1 ← scanBlock (getInsts BB) M; scanBlocks Rest M1
  end.

Fixpoint scanFunctions (Fns : list SILFunction) (M : SILModule) : option SILModule :=
  match Fns with
  | [] => Some M
  | Fn :: Rest => M1 ← scanBlocks (getBlocks Fn) M; scanFunctions Rest M1
  end.

(** [performSILMemoryPromotion]: every function, every block. *)
Definition performSILMemoryPromotion (M : SILModule) : option SILModule :=
  scanFunctions (getFunctions M) M.

(** ** Specification-side notions for the flattener *)

(** The number of scalar leaves of a type, as an unbounded integer. *)
Fixpoint leafCount (T : CanType) (M : SILModule) {struct T} : Z :=
  match T with
  | TupleType Fields =>
      fold_right (fun Elt acc => leafCount Elt M + acc) 0 Fields
  | StructType _ Members =>
      if isAddressOnly M T then 1
      else
        fold_right (fun D acc =>
                      match D with
                      | VarDecl Ty => leafCount Ty M + acc
                      | OtherDecl _ => acc
                      end) 0 Members
  | _ => 1
  end.

(** The types of the stored fields of a struct, in declaration order. *)
Definition storedFieldTypes (Members : list (Decl CanType)) : list CanType :=
  omap (fun D => match D with VarDecl Ty => Some Ty | OtherDecl _ => None end)
       Members.

(** Sum in [unsigned] arithmetic and in the integers. *)
Definition usum (l : list Z) : Z := fold_left (fun a x => wrap (a + x)) l 0.
Definition zsum (l : list Z) : Z := fold_right Z.add 0 l.

(** No tuple without components and no inspectable struct without stored
    fields occurs in the part of the type that the flattener walks. *)
Fixpoint noEmptyAggregate (T : CanType) (M : SILModule) {struct T} : bool :=
  match T with
  | TupleType Fields =>
      negb (Nat.eqb (length Fields) 0)
      && forallb (fun Elt => noEmptyAggregate Elt M) Fields
  | StructType _ Members =>
      if isAddressOnly M T then true
      else
        existsb (fun D => match D with VarDecl _ => true | _ => false end) Members
        && forallb (fun D => match D with
                             | VarDecl Ty => noEmptyAggregate Ty M
                             | OtherDecl _ => true
                             end) Members
  | _ => true
  end.

(** ** Concrete types and modules used to exercise the definitions *)

Definition IntTy : CanType := OtherType "Int".
Definition VoidTy : CanType := TupleType [].
Definition PairTy : CanType := TupleType [IntTy; IntTy].
Definition NestedTy : CanType := TupleType [IntTy; PairTy].
Definition PointTy : CanType :=
  StructType "Point" [VarDecl IntTy; OtherDecl "init"; VarDecl PairTy].
Definition ResilientTy : CanType :=
  StructType "Resilient" [VarDecl IntTy; VarDecl IntTy].

Definition EmptyStructTy : CanType := StructType "Empty" [OtherDecl "init"].

(** The tuple type that nests pairs [n] deep: it has [2^n] leaves. *)
Fixpoint doubled (n : nat) : CanType :=
  match n with
  | O => IntTy
  | S n' => TupleType [doubled n'; doubled n']
  end.

Definition resilientLayout (T : CanType) : bool :=
  match T with
  | StructType Name _ => String.eqb Name "Resilient"
  | _ => false
  end.

(** Callee signatures: the function type named [FnIndirect] has an
    indirect return slot; every function type has a by-reference
    parameter at argument position 2 and by-value parameters elsewhere. *)
Definition sampleSignature (T : SILType) : SILFunctionTypeInfo :=
  mkFTI (match getSwiftRValueType T with
         | OtherType Name => String.eqb Name "FnIndirect"
         | _ => false
         end)
        (fun N => if N =? 2 then LValueType IntTy else IntTy).

Definition emptyModule : SILModule :=
  mkModule resilientLayout sampleSignature [] [].

(** ** Specification-side notions for the use collector *)

(** The bookkeeping instructions that the collector skips. *)
Definition isIgnoredUser (User : SILInstruction) : bool :=
  isa_DeallocStackInst User || isa_RetainInst User
  || isa_ReleaseInst User || isa_DeallocRefInst User.

(** Argument position [ArgPos] of a callee with signature [FTI] is the
    indirect-return slot or has a by-reference parameter type. *)
Definition byRefPosition (FTI : SILFunctionTypeInfo) (ArgPos : Z) : bool :=
  (ArgPos =? 0) && hasIndirectReturn FTI
  || is_LValueType (getSwiftArgumentType FTI ArgPos).

(** The kind under which one use is recorded; [None] for an ignored use. *)
Definition recordedKind (M : SILModule) (UI : Operand) : option UseKind :=
  let User := getUser UI in
  if isIgnoredUser User then None
  else if isa_LoadInst User then Some Load
  else if isa_StoreInst User && (getOperandNumber UI =? 1) then Some Store
  else
    match getKind User with
    | ApplyInst Callee _ | PartialApplyInst Callee _ =>
        if byRefPosition (getFunctionTypeInfo M (getType Callee))
                         (wrap (getOperandNumber UI - 1))
        then Some ByrefUse else Some Escape
    | _ => Some Escape
    end.

Definition recordedUse (M : SILModule) (UI : Operand)
  : option (SILInstruction * UseKind) :=
  (fun Kind => (getUser UI, Kind)) <$> recordedKind M UI.

(** Buckets [BaseElt .. BaseElt + e - 1] each receive the entries [Es]. *)
Definition appendToSpan (BaseElt e : Z) (Es : ElementUses)
           (Uses : list ElementUses) : list ElementUses :=
  imap (fun k Bucket =>
          if bool_decide (BaseElt <= Z.of_nat k < BaseElt + e)
          then Bucket ++ Es else Bucket)
       Uses.

(** The total number of recorded entries over all buckets. *)
Definition totalEntries (Uses : list ElementUses) : Z :=
  zsum (map (fun Bucket => Z.of_nat (length Bucket)) Uses).

(** ** Specification-side notions for escape tracking and promotion *)

(** The blocks in which an element has an [Escape] use. *)
Definition escapeBlocks (Uses : ElementUses) : list BlockID :=
  omap (fun Use => match Use.2 with
                   | Escape => Some (getParent Use.1)
                   | _ => None
                   end) Uses.

(** Control-flow edges: the successors named by a block's terminator. *)
Definition successors (BB : SILBasicBlock) : list BlockID :=
  flat_map (fun J => match getKind J with
                     | BranchInst DestBB _ => [DestBB]
                     | CondBranchInst _ TrueBB FalseBB => [TrueBB; FalseBB]
                     | _ => []
                     end) (getInsts BB).

Definition allBlocks (M : SILModule) : list SILBasicBlock :=
  flat_map getBlocks (getFunctions M).

Definition CFGEdge (M : SILModule) (A B : BlockID) : Prop :=
  exists BB, In BB (allBlocks M) /\ BlockPtr BB = A /\ In B (successors BB).

(** Section 4.3 of the design: a block is tainted exactly when it is
    reachable, by zero or more control-flow edges, from a block that
    holds an [Escape] use of the element. *)
Definition TaintIsForwardReachable (M : SILModule) (Uses : ElementUses)
           (PBI : gmap BlockID LiveOutBlockState) : Prop :=
  forall B : BlockID,
    PBI !! B = Some (mkLiveOut EscapeKind.Yes) <->
    exists Seed User,
      In (User, Escape) Uses /\ getParent User = Seed /\ rtc (CFGEdge M) Seed B.

(** A path from the entry block of a function, most recent block first. *)
Inductive EntryPath (Fn : SILFunction) : list SILBasicBlock -> Prop :=
| EntryPath_entry Entry Rest :
    getBlocks Fn = Entry :: Rest -> EntryPath Fn [Entry]
| EntryPath_step Next Cur Path :
    EntryPath Fn (Cur :: Path) ->
    In Next (getBlocks Fn) ->
    In (BlockPtr Next) (successors Cur) ->
    EntryPath Fn (Next :: Cur :: Path).

(** The instructions executed along a path before position [Pos] of its
    last block. *)
Definition executedBefore (Path : list SILBasicBlock) (Pos : nat)
  : list SILInstruction :=
  match Path with
  | [] => []
  | Cur :: Prev => flat_map getInsts (rev Prev) ++ take Pos (getInsts Cur)
  end.

Definition isStoreTo (V : SILValue) (J : SILInstruction) : bool :=
  match getKind J with
  | StoreInst _ Dest => sameValue V Dest
  | _ => false
  end.

(** The reaching definition at a point of a path: the last store to the
    address executed before it, if any. *)
Definition reachingStore (V : SILValue) (Path : list SILBasicBlock) (Pos : nat)
  : option SILInstruction :=
  last (List.filter (isStoreTo V) (executedBefore Path Pos)).

Definition reachedAt (Fn : SILFunction) (L : SILInstruction)
           (Path : list SILBasicBlock) (Pos : nat) : Prop :=
  EntryPath Fn Path
  /\ exists Cur Prev, Path = Cur :: Prev /\ getInsts Cur !! Pos = Some L.

(** Every path from the entry to [L] has the same, single reaching store. *)
Definition uniqueReachingStore (Fn : SILFunction) (V : SILValue)
           (L : SILInstruction) : Prop :=
  exists S, forall Path Pos,
      reachedAt Fn L Path Pos -> reachingStore V Path Pos = Some S.

(** Some path from the entry reaches [L] with no store before it. *)
Definition readBeforeInit (Fn : SILFunction) (V : SILValue)
           (L : SILInstruction) : Prop :=
  exists Path Pos, reachedAt Fn L Path Pos /\ reachingStore V Path Pos = None.

(** The buckets [optimizeAllocBox] collects for an allocation. *)
Definition boxUses (M : SILModule) (ABI : SILInstruction) (ElementType : SILType)
  : option (list ElementUses) :=
  collectAllocationUses M (boxAddress ABI ElementType)
    (freshBuckets (getNumElements (getSwiftRValueType ElementType) M)) 0.

(** Element [Elt] of allocation [ABI] of function [Fn] has the use list
    [Bucket]. *)
Definition elementUses (M : SILModule) (Fn : SILFunction) (ABI : SILInstruction)
           (ElementType : SILType) (Elt : nat) (Bucket : ElementUses) : Prop :=
  In Fn (getFunctions M)
  /\ In ABI (blockInsts Fn)
  /\ dyn_cast_AllocBoxInst ABI = Some ElementType
  /\ exists Uses, boxUses M ABI ElementType = Some Uses /\ Uses !! Elt = Some Bucket.

Definition diagnosticsAt (M : SILModule) (L : SILInstruction) : list Diagnostic :=
  List.filter (fun D => Nat.eqb (DiagInst D) (InstPtr L)) (getDiags M).

(** Section 8, promotion soundness, of a run that takes [M] to [M']. *)
Definition PromotionSoundness (M M' : SILModule) : Prop :=
  forall Fn ABI ElementType Elt Bucket,
    elementUses M Fn ABI ElementType Elt Bucket ->
    (forall User, ~ In (User, Escape) Bucket /\ ~ In (User, ByrefUse) Bucket) ->
    (forall L, In (L, Load) Bucket ->
               uniqueReachingStore Fn (boxAddress ABI ElementType) L) ->
    forall L, In (L, Load) Bucket ->
      ~ In L (allInsts M')
      /\ forall Uses' Bucket' User,
          boxUses M' ABI ElementType = Some Uses' ->
          Uses' !! Elt = Some Bucket' ->
          ~ In (User, Load) Bucket'.

(** Section 8, initialization detection, of a run that takes [M] to [M']. *)
Definition InitializationDetection (M M' : SILModule) : Prop :=
  forall Fn ABI ElementType Elt Bucket L,
    elementUses M Fn ABI ElementType Elt Bucket ->
    In (L, Load) Bucket ->
    readBeforeInit Fn (boxAddress ABI ElementType) L ->
    length (diagnosticsAt M' L) = S (length (diagnosticsAt M L))
    /\ In L (allInsts M').

(** ** Specification-side notions for the driver *)

(** Instruction objects have distinct addresses. *)
Definition uniquePtrs (M : SILModule) : Prop :=
  NoDup (map InstPtr (allInsts M)).

(** An [alloc_box] no result of which has a use. *)
Definition isDeadBox (M : SILModule) (J : SILInstruction) : bool :=
  match dyn_cast_AllocBoxInst J with
  | Some _ => use_empty M J
  | None => false
  end.

(** The addresses of the dead boxes among the instructions [l]. *)
Definition deadBoxes (M : SILModule) (l : list SILInstruction) : list InstID :=
  map InstPtr (List.filter (isDeadBox M) l).

(** Every instruction of [M] whose address is in [E] has no operand, so
    unlinking it changes no use list. *)
Definition erasable (M : SILModule) (E : list InstID) : Prop :=
  forall J, In J (allInsts M) -> InstPtr J ∈ E -> getAllOperands J = [].

(** The module with every dead [alloc_box] unlinked and nothing else
    changed. *)
Definition eraseDeadBoxes (M : SILModule) : SILModule :=
  mkModule (isAddressOnly M) (getFunctionTypeInfo M)
    (map (fun Fn =>
            mkFunction (getName Fn)
              (map (fun BB =>
                      mkBlock (BlockPtr BB)
                        (List.filter (fun J => negb (isDeadBox M J)) (getInsts BB)))
                   (getBlocks Fn)))
         (getFunctions M))
    (getDiags M).

(** ** Sample programs *)

Local Close Scope Z_scope.

Definition IntSIL : SILType := mkSILType IntTy false.
Definition PairSIL : SILType := mkSILType PairTy false.
Definition FnSIL : SILType := mkSILType (OtherType "Fn") false.
Definition FnIndirectSIL : SILType := mkSILType (OtherType "FnIndirect") false.

Definition mkBox (Ptr : InstID) (BB : BlockID) (Ty : SILType) : SILInstruction :=
  mkInst Ptr BB (AllocBoxInst Ty).

(** One block that touches a box of type [(Int, Int)] in every way the
    collector distinguishes:
<<
  bb0:
    %0 = integer_literal
    %1 = alloc_box $(Int, Int)
    store %0 to %1#1
    store %1#1 to %0
    %4 = load %1#1
    %5 = function_ref
    %6 = apply %5(%1#1, %0, %1#1)
    dealloc_stack %1#1
    %8 = function_ref
    %9 = apply %8(%1#1)
    return %4
>>
    where [%5] has type [Fn] and [%8] has type [FnIndirect]. *)
Definition usesBox : SILInstruction := mkBox 1 0 PairSIL.
Definition usesAddr : SILValue := boxAddress usesBox PairSIL.
Definition usesLit : SILValue := mkSILValue 0 0 IntSIL.
Definition usesFn : SILValue := mkSILValue 5 0 FnSIL.
Definition usesStoreTo : SILInstruction := mkInst 2 0 (StoreInst usesLit usesAddr).
Definition usesStoreOf : SILInstruction := mkInst 3 0 (StoreInst usesAddr usesLit).
Definition usesLoad : SILInstruction := mkInst 4 0 (LoadInst usesAddr).
Definition usesFnIndirect : SILValue := mkSILValue 8 0 FnIndirectSIL.
Definition usesApply : SILInstruction :=
  mkInst 6 0 (ApplyInst usesFn [usesAddr; usesLit; usesAddr]).
Definition usesApplyIndirect : SILInstruction :=
  mkInst 9 0 (ApplyInst usesFnIndirect [usesAddr]).
Definition usesModule : SILModule :=
  mkModule resilientLayout sampleSignature
    [mkFunction "uses"
       [mkBlock 0
          [mkInst 0 0 (OtherInst "integer_literal" []);
           usesBox; usesStoreTo; usesStoreOf; usesLoad;
           mkInst 5 0 (OtherInst "function_ref" []);
           usesApply;
           mkInst 7 0 (DeallocStackInst usesAddr);
           mkInst 8 0 (OtherInst "function_ref" []);
           usesApplyIndirect;
           mkInst 10 0 (ReturnInst (mkSILValue 4 0 PairSIL))]]]
    [].

(** A store followed by a load, in the entry block:
<<
  bb0:
    %0 = integer_literal
    %1 = alloc_box $Int
    store %0 to %1#1
    %3 = load %1#1
    return %3
>> *)
Definition lineBox : SILInstruction := mkBox 1 0 IntSIL.
Definition lineAddr : SILValue := boxAddress lineBox IntSIL.
Definition lineStore : SILInstruction :=
  mkInst 2 0 (StoreInst (mkSILValue 0 0 IntSIL) lineAddr).
Definition lineLoad : SILInstruction := mkInst 3 0 (LoadInst lineAddr).
Definition lineBlock : SILBasicBlock :=
  mkBlock 0 [mkInst 0 0 (OtherInst "integer_literal" []);
             lineBox; lineStore; lineLoad;
             mkInst 4 0 (ReturnInst (mkSILValue 3 0 IntSIL))].
Definition lineFn : SILFunction := mkFunction "line" [lineBlock].
Definition lineModule : SILModule :=
  mkModule resilientLayout sampleSignature [lineFn] [].

(** A load with no store before it:
<<
  bb0:
    %1 = alloc_box $Int
    %2 = load %1#1
    return %2
>> *)
Definition rawBox : SILInstruction := mkBox 1 0 IntSIL.
Definition rawAddr : SILValue := boxAddress rawBox IntSIL.
Definition rawLoad : SILInstruction := mkInst 2 0 (LoadInst rawAddr).
Definition rawBlock : SILBasicBlock :=
  mkBlock 0 [rawBox; rawLoad; mkInst 3 0 (ReturnInst (mkSILValue 2 0 IntSIL))].
Definition rawFn : SILFunction := mkFunction "raw" [rawBlock].
Definition rawModule : SILModule :=
  mkModule resilientLayout sampleSignature [rawFn] [].

(** An escape in the entry block and a load in its successor:
<<
  bb0:
    %0 = function_ref
    %1 = alloc_box $Int
    %2 = apply %0(%1#1)
    br bb1
  bb1:
    %4 = load %1#1
    return %4
>> *)
Definition escBox : SILInstruction := mkBox 1 0 IntSIL.
Definition escAddr : SILValue := boxAddress escBox IntSIL.
Definition escApply : SILInstruction :=
  mkInst 2 0 (ApplyInst (mkSILValue 0 0 FnSIL) [escAddr]).
Definition escLoad : SILInstruction := mkInst 4 1 (LoadInst escAddr).
Definition escEntry : SILBasicBlock :=
  mkBlock 0 [mkInst 0 0 (OtherInst "function_ref" []);
             escBox; escApply;
             mkInst 3 0 (BranchInst 1 [])].
Definition escNext : SILBasicBlock :=
  mkBlock 1 [escLoad; mkInst 5 1 (ReturnInst (mkSILValue 4 0 IntSIL))].
Definition escModule : SILModule :=
  mkModule resilientLayout sampleSignature
    [mkFunction "esc" [escEntry; escNext]] [].

(** Two boxes, one of them never used:
<<
  bb0:
    %0 = alloc_box $Int
    %1 = alloc_box $Int
    %2 = load %1#1
    return %2
>> *)
Definition deadBox : SILInstruction := mkBox 0 0 IntSIL.
Definition liveBox : SILInstruction := mkBox 1 0 IntSIL.
Definition liveLoad : SILInstruction :=
  mkInst 2 0 (LoadInst (boxAddress liveBox IntSIL)).
Definition liveReturn : SILInstruction :=
  mkInst 3 0 (ReturnInst (mkSILValue 2 0 IntSIL)).
Definition twoBoxModule : SILModule :=
  mkModule resilientLayout sampleSignature
    [mkFunction "two" [mkBlock 0 [deadBox; liveBox; liveLoad; liveReturn]]] [].
Definition twoBoxResult : SILModule :=
  mkModule resilientLayout sampleSignature
    [mkFunction "two" [mkBlock 0 [liveBox; liveLoad; liveReturn]]] [].

Local Open Scope Z_scope.

(** The buckets the collector fills for the sample programs. *)
Definition usesBucket : list (SILInstruction * UseKind) :=
  [(usesStoreTo, Store); (usesStoreOf, Escape); (usesLoad, Load);
   (usesApply, Escape); (usesApply, ByrefUse); (usesApplyIndirect, ByrefUse)].
Definition lineBucket : list (SILInstruction * UseKind) :=
  [(lineStore, Store); (lineLoad, Load)].
Definition rawBucket : list (SILInstruction * UseKind) := [(rawLoad, Load)].
Definition escBucket : list (SILInstruction * UseKind) :=
  [(escApply, Escape); (escLoad, Load)].

(** More sample programs. *)

Local Close Scope Z_scope.

(** An address projection, which the collector does not recognise:
<<
  bb0:
    %1 = alloc_box $(Int, Int)
    %2 = tuple_element_addr %1#1
    return %2
>> *)
Definition projBox : SILInstruction := mkBox 1 0 PairSIL.
Definition projAddr : SILValue := boxAddress projBox PairSIL.
Definition projElementAddr : SILInstruction :=
  mkInst 2 0 (OtherInst "tuple_element_addr" [projAddr]).
Definition projReturn : SILInstruction :=
  mkInst 3 0 (ReturnInst (mkSILValue 2 0 IntSIL)).
Definition projModule : SILModule :=
  mkModule resilientLayout sampleSignature
    [mkFunction "proj" [mkBlock 0 [projBox; projElementAddr; projReturn]]] [].

(** A box of the empty tuple whose address escapes into a call:
<<
  bb0:
    %0 = function_ref
    %1 = alloc_box $()
    %2 = apply %0(%1#1)
    return %2
>> *)
Definition VoidSIL : SILType := mkSILType VoidTy false.
Definition voidBox : SILInstruction := mkBox 1 0 VoidSIL.
Definition voidAddr : SILValue := boxAddress voidBox VoidSIL.
Definition voidApply : SILInstruction :=
  mkInst 2 0 (ApplyInst (mkSILValue 0 0 FnSIL) [voidAddr]).
Definition voidModule : SILModule :=
  mkModule resilientLayout sampleSignature
    [mkFunction "void"
       [mkBlock 0 [mkInst 0 0 (OtherInst "function_ref" []);
                   voidBox; voidApply;
                   mkInst 3 0 (ReturnInst (mkSILValue 2 0 VoidSIL))]]] [].

Local Open Scope Z_scope.

(** * Properties *)

(** ** Structural induction on types *)

Section CanType_induction.
Variable P : CanType -> Prop.
Hypothesis Htuple : forall Fields, Forall P Fields -> P (TupleType Fields).
Hypothesis Hstruct : forall Name Members,
    Forall (fun D => match D with VarDecl Ty => P Ty | OtherDecl _ => True end) Members ->
    P (StructType Name Members).
Hypothesis Hlvalue : forall T, P T -> P (LValueType T).
Hypothesis Hother : forall Name, P (OtherType Name).

Fixpoint CanType_ind (T : CanType) {struct T} : P T :=
  match T with
  | TupleType Fields =>
      Htuple Fields
        ((fix go (l : list CanType) : Forall P l :=
            match l with
            | [] => List.Forall_nil P
            | x :: r => List.Forall_cons _ x r (CanType_ind x) (go r)
            end) Fields)
  | StructType Name Members =>
      Hstruct Name Members
        ((fix go (l : list (Decl CanType))
            : Forall (fun D => match D with VarDecl Ty => P Ty | OtherDecl _ => True end) l :=
            match l with
            | [] => List.Forall_nil _
            | D :: r =>
                List.Forall_cons _ D r
                  (match D as D0
                         return match D0 with VarDecl Ty => P Ty | OtherDecl _ => True end
                   with
                   | VarDecl Ty => CanType_ind Ty
                   | OtherDecl _ => Logic.I
                   end)
                  (go r)
            end) Members)
  | LValueType T' => Hlvalue T' (CanType_ind T')
  | OtherType Name => Hother Name
  end.
End CanType_induction.

(** ** Machine integers *)

Lemma UINT_MOD_eq : UINT_MOD = 4294967296.
Proof. reflexivity. Qed.

Lemma wrap_range z : 0 <= wrap z < UINT_MOD.
Proof. unfold wrap. apply Z.mod_pos_bound. rewrite UINT_MOD_eq. lia. Qed.

Lemma wrap_small z : 0 <= z < UINT_MOD -> wrap z = z.
Proof. intros H. unfold wrap. now apply Z.mod_small. Qed.

Lemma wrap_add_l a b : wrap (wrap a + b) = wrap (a + b).
Proof. unfold wrap. now rewrite Zplus_mod_idemp_l. Qed.

Lemma wrap_add_r a b : wrap (a + wrap b) = wrap (a + b).
Proof. unfold wrap. now rewrite Zplus_mod_idemp_r. Qed.

Lemma wrap_wrap a : wrap (wrap a) = wrap a.
Proof. unfold wrap. apply Zmod_mod. Qed.

(** ** Aggregate flattener *)

Lemma usum_from (l : list Z) (a : Z) :
  fold_left (fun a x => wrap (a + x)) l (wrap a) = wrap (a + zsum l).
Proof.
  revert a. induction l as [|x l IH]; intros a; simpl.
  - now rewrite Z.add_0_r.
  - rewrite wrap_add_l, IH. f_equal. lia.
Qed.

Lemma usum_zsum (l : list Z) : usum l = wrap (zsum l).
Proof.
  unfold usum. change 0 with (wrap 0) at 1. now rewrite usum_from.
Qed.

Lemma zsum_nonneg (l : list Z) : Forall (fun x => 0 <= x) l -> 0 <= zsum l.
Proof. induction 1; simpl; lia. Qed.

Lemma getNumElements_tuple Fields M :
  getNumElements (TupleType Fields) M
  = usum (map (fun Elt => getNumElements Elt M) Fields).
Proof.
  simpl. unfold usum. generalize 0.
  induction Fields as [|x l IH]; intros a; simpl; [reflexivity|apply IH].
Qed.

Lemma getNumElements_struct Name Members M :
  isAddressOnly M (StructType Name Members) = false ->
  getNumElements (StructType Name Members) M
  = usum (map (fun Ty => getNumElements Ty M) (storedFieldTypes Members)).
Proof.
  intros HA. simpl. rewrite HA. clear HA. unfold usum, storedFieldTypes. generalize 0.
  induction Members as [|[Ty|n] l IH]; intros a; simpl; [reflexivity|apply IH|apply IH].
Qed.

Lemma getNumElements_range T M : 0 <= getNumElements T M < UINT_MOD.
Proof.
  destruct T as [Fields|Name Members| |].
  - rewrite getNumElements_tuple, usum_zsum. apply wrap_range.
  - destruct (isAddressOnly M (StructType Name Members)) eqn:HA.
    + simpl. rewrite HA. rewrite UINT_MOD_eq. lia.
    + rewrite getNumElements_struct by assumption. rewrite usum_zsum. apply wrap_range.
  - simpl. rewrite UINT_MOD_eq. lia.
  - simpl. rewrite UINT_MOD_eq. lia.
Qed.

Lemma leafCount_tuple Fields M :
  leafCount (TupleType Fields) M = zsum (map (fun Elt => leafCount Elt M) Fields).
Proof.
  simpl. induction Fields as [|x l IH]; simpl; [reflexivity|now rewrite IH].
Qed.

Lemma leafCount_struct Name Members M :
  isAddressOnly M (StructType Name Members) = false ->
  leafCount (StructType Name Members) M
  = zsum (map (fun Ty => leafCount Ty M) (storedFieldTypes Members)).
Proof.
  intros HA. simpl. rewrite HA. clear HA. unfold storedFieldTypes.
  induction Members as [|[Ty|n] l IH]; simpl; [reflexivity|now rewrite IH|exact IH].
Qed.

Lemma Forall_storedFieldTypes (P : CanType -> Prop) Members :
  Forall (fun D => match D with VarDecl Ty => P Ty | OtherDecl _ => True end) Members ->
  Forall P (storedFieldTypes Members).
Proof.
  unfold storedFieldTypes.
  induction 1 as [|[Ty|n] l HD _ IH]; simpl; [constructor|now constructor|exact IH].
Qed.

Lemma wrap_zsum_congr {A} (f g : A -> Z) (l : list A) :
  Forall (fun x => f x = wrap (g x)) l ->
  wrap (zsum (map f l)) = wrap (zsum (map g l)).
Proof.
  induction 1 as [|x l Hx _ IH]; simpl; [reflexivity|].
  rewrite Hx, wrap_add_l.
  rewrite <- wrap_add_r, IH, wrap_add_r. reflexivity.
Qed.

(** The count the code returns is the leaf count reduced modulo [2^32]. *)
Lemma getNumElements_leafCount T M : getNumElements T M = wrap (leafCount T M).
Proof.
  induction T as [Fields IH|Name Members IH|T _|Name] using CanType_ind;
    try reflexivity.
  - rewrite getNumElements_tuple, usum_zsum, leafCount_tuple.
    now apply wrap_zsum_congr.
  - destruct (isAddressOnly M (StructType Name Members)) eqn:HA.
    + simpl. now rewrite HA.
    + rewrite getNumElements_struct, usum_zsum, leafCount_struct by assumption.
      apply wrap_zsum_congr. now apply Forall_storedFieldTypes.
Qed.

Lemma zsum_map_nonneg {A} (f : A -> Z) (l : list A) :
  Forall (fun x => 0 <= f x) l -> 0 <= zsum (map f l).
Proof. induction 1; simpl; lia. Qed.

Lemma leafCount_nonneg T M : 0 <= leafCount T M.
Proof.
  induction T as [Fields IH|Name Members IH|T _|Name] using CanType_ind;
    try (simpl; lia).
  - rewrite leafCount_tuple. now apply zsum_map_nonneg.
  - destruct (isAddressOnly M (StructType Name Members)) eqn:HA.
    + simpl. rewrite HA. lia.
    + rewrite leafCount_struct by assumption.
      apply zsum_map_nonneg. now apply Forall_storedFieldTypes.
Qed.

Lemma zsum_map_pos {A} (f : A -> Z) (l : list A) :
  l <> [] -> Forall (fun x => 1 <= f x) l -> 1 <= zsum (map f l).
Proof.
  intros Hne HF. destruct HF as [|x l Hx HF]; [congruence|]. simpl.
  assert (0 <= zsum (map f l)).
  { apply zsum_map_nonneg. eapply Forall_impl; [exact HF|]. simpl. intros; lia. }
  lia.
Qed.

Lemma noEmptyAggregate_leafCount T M :
  noEmptyAggregate T M = true -> 1 <= leafCount T M.
Proof.
  induction T as [Fields IH|Name Members IH|T _|Name] using CanType_ind;
    intros HN; try (simpl; lia).
  - rewrite leafCount_tuple. simpl in HN.
    apply andb_prop in HN as [Hlen Hall].
    apply zsum_map_pos.
    + destruct Fields; [discriminate|congruence].
    + rewrite forallb_forall in Hall. rewrite List.Forall_forall in IH |- *.
      intros x Hx. apply IH; [exact Hx|]. now apply Hall.
  - simpl in HN. destruct (isAddressOnly M (StructType Name Members)) eqn:HA.
    + simpl. rewrite HA. lia.
    + rewrite leafCount_struct by assumption.
      apply andb_prop in HN as [Hex Hall].
      apply zsum_map_pos.
      * unfold storedFieldTypes. clear -Hex.
        induction Members as [|[Ty|n] l IHl]; simpl in *; [discriminate|congruence|auto].
      * unfold storedFieldTypes. clear -IH Hall.
        induction Members as [|[Ty|n] l IHl]; simpl in *; [constructor| |].
        -- apply andb_prop in Hall as [H1 H2].
           apply List.Forall_cons_iff in IH as [IH1 IH2].
           constructor; auto.
        -- apply List.Forall_cons_iff in IH as [_ IH2]. auto.
Qed.

Lemma zsum_cons' (x : Z) (l : list Z) : zsum (x :: l) = x + zsum l.
Proof. reflexivity. Qed.

Lemma getNumElements_tuple_sum Fields M :
  getNumElements (TupleType Fields) M
  = wrap (zsum (map (fun Elt => getNumElements Elt M) Fields)).
Proof. rewrite getNumElements_tuple. apply usum_zsum. Qed.

Lemma getNumElements_ext T M M' :
  (forall S, isAddressOnly M S = isAddressOnly M' S) ->
  getNumElements T M = getNumElements T M'.
Proof.
  intros Hext.
  induction T as [Fields IH|Name Members IH|T _|Name] using CanType_ind;
    try reflexivity.
  - rewrite !getNumElements_tuple. f_equal.
    apply map_ext_in. now apply List.Forall_forall.
  - destruct (isAddressOnly M (StructType Name Members)) eqn:HA.
    + simpl. now rewrite <- Hext, HA.
    + rewrite !getNumElements_struct by (now rewrite <- ?Hext).
      f_equal. apply map_ext_in. apply List.Forall_forall.
      now apply Forall_storedFieldTypes.
Qed.

Lemma usum_exact (l : list Z) :
  Forall (fun x => 0 <= x) l -> zsum l < UINT_MOD -> usum l = zsum l.
Proof.
  intros Hnn Hlt. rewrite usum_zsum. apply wrap_small.
  split; [now apply zsum_nonneg|exact Hlt].
Qed.

(** C5, amended.  [getNumElements] is a total function of the type and
    of the module's layout answers: two modules that agree on which
    types are address-only give the same count.  A tuple yields the sum
    of the counts of its components reduced modulo [2^32]; a struct
    whose layout is inspectable yields the sum over its stored fields
    reduced modulo [2^32]; an address-only struct yields 1; every other
    type yields 1.  The reduced sum is the integer sum whenever that is
    below [2^32]. *)
Theorem getNumElements_structural_rules (M : SILModule) :
  (forall T M', (forall S, isAddressOnly M S = isAddressOnly M' S) ->
                getNumElements T M = getNumElements T M')
  /\ (forall Fields,
         getNumElements (TupleType Fields) M
         = zsum (map (fun Elt => getNumElements Elt M) Fields) mod 2 ^ 32)
  /\ (forall Name Members,
         isAddressOnly M (StructType Name Members) = false ->
         getNumElements (StructType Name Members) M
         = zsum (map (fun Ty => getNumElements Ty M) (storedFieldTypes Members))
           mod 2 ^ 32)
  /\ (forall Name Members,
         isAddressOnly M (StructType Name Members) = true ->
         getNumElements (StructType Name Members) M = 1)
  /\ (forall T,
         match T with
         | TupleType _ | StructType _ _ => True
         | _ => getNumElements T M = 1
         end)
  /\ (forall Tys : list CanType,
         zsum (map (fun Ty => getNumElements Ty M) Tys) < 2 ^ 32 ->
         zsum (map (fun Ty => getNumElements Ty M) Tys) mod 2 ^ 32
         = zsum (map (fun Ty => getNumElements Ty M) Tys)).
Proof.
  change (2 ^ 32) with UINT_MOD.
  split; [|split; [|split; [|split; [|split]]]].
  - intros T M' Hext. now apply getNumElements_ext.
  - intros Fields. rewrite getNumElements_tuple. apply usum_zsum.
  - intros Name Members HA. rewrite getNumElements_struct by assumption.
    apply usum_zsum.
  - intros Name Members HA. simpl. now rewrite HA.
  - intros [ | | | ]; simpl; auto.
  - intros Tys Hlt. fold (wrap (zsum (map (fun Ty => getNumElements Ty M) Tys))).
    rewrite <- usum_zsum. apply usum_exact; [|exact Hlt].
    apply List.Forall_forall. intros x Hx. apply in_map_iff in Hx as [Ty [<- _]].
    apply getNumElements_range.
Qed.

(** The rules of C5 at the tuple [(Int, (Int, Int))], at a struct with
    a non-stored member, and at a resilient struct. *)
Lemma getNumElements_structural_rules_witness :
  getNumElements NestedTy emptyModule = 3
  /\ getNumElements PointTy emptyModule = 3
  /\ getNumElements ResilientTy emptyModule = 1
  /\ getNumElements IntTy emptyModule = 1.
Proof.
  destruct (getNumElements_structural_rules emptyModule)
    as (_ & Htuple & Hstruct & Hopaque & Hother & _).
  split; [|split; [|split]].
  - unfold NestedTy. rewrite Htuple. reflexivity.
  - unfold PointTy. rewrite Hstruct; reflexivity.
  - unfold ResilientTy. rewrite Hopaque; reflexivity.
  - exact (Hother IntTy).
Defined.

(** C4, the claim as stated, fails: the empty tuple is a well-formed
    value type and the sum over its zero components is 0; so is the sum
    over the stored fields of a struct that has none. *)
Lemma getNumElements_empty_tuple_is_zero :
  getNumElements VoidTy emptyModule = 0
  /\ getNumElements EmptyStructTy emptyModule = 0
  /\ ~ (1 <= getNumElements VoidTy emptyModule).
Proof.
  split; [reflexivity|]. split; [reflexivity|].
  vm_compute. intros H. now apply H.
Qed.

Lemma leafCount_doubled n M : leafCount (doubled n) M = 2 ^ Z.of_nat n.
Proof.
  induction n as [|n IH].
  - reflexivity.
  - rewrite Nat2Z.inj_succ, Z.pow_succ_r by lia.
    change (doubled (S n)) with (TupleType [doubled n; doubled n]).
    rewrite leafCount_tuple. simpl. rewrite IH. lia.
Qed.

Lemma noEmptyAggregate_doubled n M : noEmptyAggregate (doubled n) M = true.
Proof. induction n as [|n IH]; simpl; [reflexivity|]. now rewrite IH. Qed.

(** The bound on the number of leaves is needed: a type without empty
    aggregates whose [2^32] leaves wrap the accumulator to 0. *)
Lemma getNumElements_wraps M :
  noEmptyAggregate (doubled 32) M = true
  /\ leafCount (doubled 32) M = UINT_MOD
  /\ getNumElements (doubled 32) M = 0.
Proof.
  split; [apply noEmptyAggregate_doubled|].
  rewrite getNumElements_leafCount, leafCount_doubled. split; reflexivity.
Qed.

Lemma getNumElements_doubled n M :
  (Z.of_nat n < UINT_WIDTH) -> getNumElements (doubled n) M = 2 ^ Z.of_nat n.
Proof.
  intros Hn. rewrite getNumElements_leafCount, leafCount_doubled.
  apply wrap_small. split; [apply Z.pow_nonneg; lia|].
  unfold UINT_MOD. apply Z.pow_lt_mono_r; lia.
Qed.

(** C5, the claim as stated, fails: the pair of two types with [2^31]
    leaves each counts 0, while the counts of its two components add
    up to [2^32]. *)
Lemma getNumElements_sum_wraps :
  let Fields := [doubled 31; doubled 31] in
  getNumElements (TupleType Fields) emptyModule = 0
  /\ zsum (map (fun Elt => getNumElements Elt emptyModule) Fields) = 4294967296
  /\ getNumElements (TupleType Fields) emptyModule
     <> zsum (map (fun Elt => getNumElements Elt emptyModule) Fields).
Proof.
  intros Fields. subst Fields.
  assert (H31 : getNumElements (doubled 31) emptyModule = 2147483648)
    by (rewrite getNumElements_doubled; [reflexivity|reflexivity]).
  assert (H0 : getNumElements (TupleType [doubled 31; doubled 31]) emptyModule = 0).
  { rewrite getNumElements_tuple_sum, !map_cons, !zsum_cons', H31. reflexivity. }
  assert (HS : zsum (map (fun Elt => getNumElements Elt emptyModule)
                         [doubled 31; doubled 31]) = 4294967296).
  { rewrite !map_cons, !zsum_cons', H31. reflexivity. }
  split; [exact H0|]. split; [exact HS|].
  rewrite H0, HS. discriminate.
Qed.

(** C4, amended.  For every type the count is a non-negative
    [unsigned] value.  When the number of scalar leaves of the type is
    below [2^32] the count is that number, so it is at least 1 exactly
    when the type has at least one scalar leaf: [(Int, ())] counts 1,
    [()] and [((), ())] count 0. *)
Theorem getNumElements_at_least_one (T : CanType) (M : SILModule) :
  0 <= getNumElements T M < UINT_MOD
  /\ (leafCount T M < UINT_MOD ->
      getNumElements T M = leafCount T M
      /\ (1 <= getNumElements T M <-> 1 <= leafCount T M)).
Proof.
  split; [apply getNumElements_range|].
  intros Hlt.
  pose proof (leafCount_nonneg T M) as Hnn.
  assert (HE : getNumElements T M = leafCount T M)
    by (rewrite getNumElements_leafCount; apply wrap_small; lia).
  split; [exact HE|]. rewrite HE. reflexivity.
Qed.

Lemma getNumElements_at_least_one_witness :
  leafCount (TupleType [IntTy; VoidTy]) emptyModule < UINT_MOD
  /\ getNumElements (TupleType [IntTy; VoidTy]) emptyModule = 1
  /\ leafCount (TupleType [VoidTy; VoidTy]) emptyModule < UINT_MOD
  /\ ~ 1 <= getNumElements (TupleType [VoidTy; VoidTy]) emptyModule.
Proof.
  destruct (getNumElements_at_least_one (TupleType [IntTy; VoidTy]) emptyModule)
    as [_ H1].
  destruct (getNumElements_at_least_one (TupleType [VoidTy; VoidTy]) emptyModule)
    as [_ H2].
  split; [reflexivity|]. split.
  - destruct H1 as [-> _]; reflexivity.
  - split; [reflexivity|]. destruct H2 as [_ H2]; [reflexivity|].
    intros HX. apply H2 in HX. vm_compute in HX. now apply HX.
Defined.

(** ** Use collector *)

Lemma appendToSpan_nil BaseElt e Uses : appendToSpan BaseElt e [] Uses = Uses.
Proof.
  unfold appendToSpan. apply list_eq. intros k.
  rewrite list_lookup_imap. destruct (Uses !! k) as [B|]; simpl; [|reflexivity].
  case_bool_decide; [now rewrite app_nil_r|reflexivity].
Qed.

Lemma appendToSpan_app BaseElt e Es1 Es2 Uses :
  appendToSpan BaseElt e Es2 (appendToSpan BaseElt e Es1 Uses)
  = appendToSpan BaseElt e (Es1 ++ Es2) Uses.
Proof.
  unfold appendToSpan. apply list_eq. intros k.
  rewrite !list_lookup_imap. destruct (Uses !! k) as [B|]; simpl; [|reflexivity].
  case_bool_decide; [now rewrite app_assoc|reflexivity].
Qed.

Lemma length_appendToSpan BaseElt e Es Uses :
  length (appendToSpan BaseElt e Es Uses) = length Uses.
Proof. unfold appendToSpan. apply length_imap. Qed.

Lemma addElementUses_loop_spec Trips : forall i Uses BaseElt User Kind,
  0 <= BaseElt -> 0 <= i ->
  BaseElt + i + Z.of_nat Trips <= Z.of_nat (length Uses) ->
  BaseElt + i + Z.of_nat Trips < UINT_MOD ->
  addElementUses_loop Trips i Uses BaseElt User Kind
  = Some (imap (fun k Bucket =>
                  if bool_decide (BaseElt + i <= Z.of_nat k
                                  < BaseElt + i + Z.of_nat Trips)
                  then Bucket ++ [(User, Kind)] else Bucket) Uses).
Proof.
  induction Trips as [|Trips IH]; intros i Uses BaseElt User Kind HB Hi Hlen Hmod.
  - simpl. f_equal. apply list_eq. intros k. rewrite list_lookup_imap.
    destruct (Uses !! k); simpl; [|reflexivity].
    case_bool_decide; [lia|reflexivity].
  - simpl. unfold push_back_at.
    rewrite (wrap_small (BaseElt + i)) by lia.
    destruct (lookup_lt_is_Some_2 Uses (Z.to_nat (BaseElt + i))) as [B HBk]; [lia|].
    rewrite HBk. simpl.
    rewrite (wrap_small (i + 1)) by lia.
    rewrite IH by (rewrite ?length_insert; lia).
    f_equal. apply list_eq. intros k. rewrite !list_lookup_imap.
    destruct (decide (k = Z.to_nat (BaseElt + i))) as [->|Hne].
    + rewrite list_lookup_insert_eq by (apply lookup_lt_is_Some; eauto).
      rewrite HBk. simpl.
      rewrite bool_decide_eq_false_2 by lia.
      rewrite bool_decide_eq_true_2 by lia. reflexivity.
    + rewrite list_lookup_insert_ne by congruence.
      destruct (Uses !! k); simpl; [|reflexivity].
      f_equal. repeat case_bool_decide; try reflexivity; lia.
Qed.

Lemma addElementUses_spec M Uses BaseElt UseTy User Kind :
  let e := getNumElements (getSwiftRValueType UseTy) M in
  0 <= BaseElt ->
  BaseElt + e <= Z.of_nat (length Uses) ->
  BaseElt + e < UINT_MOD ->
  addElementUses M Uses BaseElt UseTy User Kind
  = Some (appendToSpan BaseElt e [(User, Kind)] Uses).
Proof.
  intros e HB Hlen Hmod. unfold addElementUses. fold e.
  pose proof (getNumElements_range (getSwiftRValueType UseTy) M) as He. fold e in He.
  rewrite addElementUses_loop_spec by lia.
  unfold appendToSpan. f_equal. apply imap_ext. intros k B _. simpl.
  rewrite Z.add_0_r, Z2Nat.id by lia. reflexivity.
Qed.

Lemma isByRefOrIndirectReturn_call M User ArgumentNumber Callee :
  getOperand User 0 = Some Callee ->
  isByRefOrIndirectReturn M User ArgumentNumber
  = Some (byRefPosition (getFunctionTypeInfo M (getType Callee)) ArgumentNumber).
Proof.
  intros HC. unfold isByRefOrIndirectReturn, byRefPosition. rewrite HC. simpl.
  destruct ((ArgumentNumber =? 0) && hasIndirectReturn _); reflexivity.
Qed.

(** One trip of the collector's loop records the use under
    [recordedKind], or nothing for an ignored use. *)
Lemma collectUse_recorded M PointeeType BaseElt Uses UI :
  collectUse M PointeeType BaseElt Uses UI
  = match recordedKind M UI with
    | None => Some Uses
    | Some Kind => addElementUses M Uses BaseElt PointeeType (getUser UI) Kind
    end.
Proof.
  unfold collectUse, recordedKind, isIgnoredUser.
  destruct (isa_DeallocStackInst _ || isa_RetainInst _
            || isa_ReleaseInst _ || isa_DeallocRefInst _); [reflexivity|].
  destruct (isa_LoadInst _); [reflexivity|].
  destruct (isa_StoreInst _ && _); [reflexivity|].
  unfold isa_FunctionInst.
  destruct (getKind (getUser UI)) eqn:HK; simpl; try reflexivity.
  - rewrite (isByRefOrIndirectReturn_call _ _ _ Callee)
      by (unfold getOperand, getAllOperands; now rewrite HK).
    simpl. destruct (byRefPosition _ _); reflexivity.
  - rewrite (isByRefOrIndirectReturn_call _ _ _ Callee)
      by (unfold getOperand, getAllOperands; now rewrite HK).
    simpl. destruct (byRefPosition _ _); reflexivity.
Qed.

Lemma collectUses_spec M PointeeType BaseElt UIs : forall Uses,
  let e := getNumElements (getSwiftRValueType PointeeType) M in
  0 <= BaseElt ->
  BaseElt + e <= Z.of_nat (length Uses) ->
  BaseElt + e < UINT_MOD ->
  collectUses M PointeeType BaseElt Uses UIs
  = Some (appendToSpan BaseElt e (omap (recordedUse M) UIs) Uses).
Proof.
  induction UIs as [|UI Rest IH]; intros Uses e HB Hlen Hmod; simpl.
  - now rewrite appendToSpan_nil.
  - rewrite collectUse_recorded. unfold recordedUse at 1.
    destruct (recordedKind M UI) as [Kind|]; simpl.
    + rewrite addElementUses_spec by assumption. simpl.
      rewrite IH by (rewrite ?length_appendToSpan; assumption).
      fold e. now rewrite appendToSpan_app.
    + now apply IH.
Qed.

Lemma appendToSpan_fresh e Es :
  0 <= e -> appendToSpan 0 e Es (freshBuckets e) = replicate (Z.to_nat e) Es.
Proof.
  intros He. unfold appendToSpan, freshBuckets. apply list_eq. intros k.
  rewrite list_lookup_imap.
  destruct (decide (k < Z.to_nat e)%nat) as [Hk|Hk].
  - rewrite !lookup_replicate_2 by assumption. simpl.
    rewrite bool_decide_eq_true_2 by lia. reflexivity.
  - assert (Hnone : forall x : ElementUses, replicate (Z.to_nat e) x !! k = None)
      by (intros x; apply lookup_replicate_None; lia).
    now rewrite !Hnone.
Qed.

Lemma collectAllocationUses_box M ABI ElementType :
  let e := getNumElements (getSwiftRValueType ElementType) M in
  collectAllocationUses M (boxAddress ABI ElementType) (freshBuckets e) 0
  = Some (replicate (Z.to_nat e)
            (omap (recordedUse M) (getUses M (boxAddress ABI ElementType)))).
Proof.
  intros e. unfold collectAllocationUses. simpl.
  pose proof (getNumElements_range (getSwiftRValueType ElementType) M) as He.
  fold e in He.
  rewrite collectUses_spec; simpl; fold e.
  - now rewrite appendToSpan_fresh by lia.
  - lia.
  - unfold freshBuckets. rewrite length_replicate. lia.
  - lia.
Qed.

Lemma in_operandUsesFrom P User Ops : forall N UI,
  In UI (operandUsesFrom P User N Ops) <->
  getUser UI = User
  /\ exists k Op, Ops !! k = Some Op /\ P Op = true
                  /\ getOperandNumber UI = N + Z.of_nat k.
Proof.
  induction Ops as [|Op Rest IH]; intros N UI; simpl.
  - split; [tauto|]. intros (_ & k & Op & Hk & _). now rewrite lookup_nil in Hk.
  - rewrite in_app_iff, IH. split.
    + intros [HU|(HU & k & Op' & Hk & HP & HN)].
      * destruct (P Op) eqn:HP; simpl in HU; [|tauto].
        destruct HU as [<-|[]]. simpl. split; [reflexivity|].
        exists 0%nat, Op. repeat split; [assumption|lia].
      * split; [assumption|]. exists (S k), Op'. repeat split; [assumption..|lia].
    + intros (HU & [|k] & Op' & Hk & HP & HN); simpl in Hk.
      * left. injection Hk as ->. rewrite HP. left.
        destruct UI as [U n]; simpl in *. f_equal; [congruence|lia].
      * right. split; [assumption|]. exists k, Op'. repeat split; [assumption..|lia].
Qed.

(** A use of a value is an operand slot, of an instruction of the
    module, that holds the value. *)
Lemma in_getUses M V UI :
  In UI (getUses M V) <->
  In (getUser UI) (allInsts M)
  /\ exists k Op, getAllOperands (getUser UI) !! k = Some Op
                  /\ sameValue V Op = true
                  /\ getOperandNumber UI = Z.of_nat k.
Proof.
  unfold getUses. rewrite in_flat_map. unfold operandUses. split.
  - intros (User & HIn & HU). apply in_operandUsesFrom in HU as (<- & k & Op & H1 & H2 & H3).
    split; [assumption|]. exists k, Op. repeat split; [assumption..|lia].
  - intros (HIn & k & Op & H1 & H2 & H3). exists (getUser UI). split; [assumption|].
    apply in_operandUsesFrom. split; [reflexivity|]. exists k, Op.
    repeat split; [assumption..|lia].
Qed.

Lemma recordedKind_None M UI :
  recordedKind M UI = None <-> isIgnoredUser (getUser UI) = true.
Proof.
  unfold recordedKind. destruct (isIgnoredUser (getUser UI)); [tauto|].
  split; [|discriminate].
  destruct (isa_LoadInst _); [discriminate|].
  destruct (isa_StoreInst _ && _); [discriminate|].
  destruct (getKind _); try discriminate; destruct (byRefPosition _ _); discriminate.
Qed.

Lemma in_recordedUses M UIs User Kind :
  In (User, Kind) (omap (recordedUse M) UIs) <->
  exists UI, In UI UIs /\ getUser UI = User /\ recordedKind M UI = Some Kind.
Proof.
  rewrite <- list_elem_of_In, list_elem_of_omap. unfold recordedUse. split.
  - intros (UI & HIn & HR). exists UI. rewrite list_elem_of_In in HIn.
    destruct (recordedKind M UI) as [K|]; simpl in HR; [|discriminate].
    injection HR as <- <-. auto.
  - intros (UI & HIn & <- & HK). exists UI. rewrite list_elem_of_In.
    split; [assumption|]. now rewrite HK.
Qed.

Lemma totalEntries_replicate n (Es : ElementUses) :
  totalEntries (replicate n Es) = Z.of_nat n * Z.of_nat (length Es).
Proof.
  unfold totalEntries. induction n as [|n IH]; simpl replicate; simpl map; simpl zsum.
  - lia.
  - rewrite IH. lia.
Qed.

Lemma recorded_count M span UIs :
  Z.of_nat (length (omap (recordedUse M) UIs)) * span
  = zsum (map (fun UI => if isIgnoredUser (getUser UI) then 0 else span) UIs).
Proof.
  induction UIs as [|UI Rest IH]; simpl; [reflexivity|].
  unfold recordedUse at 1.
  destruct (recordedKind M UI) as [K|] eqn:HK; simpl.
  - destruct (isIgnoredUser (getUser UI)) eqn:HI.
    + apply (proj2 (recordedKind_None M UI)) in HI. congruence.
    + rewrite <- IH, Nat2Z.inj_succ. unfold omap. lia.
  - apply recordedKind_None in HK. rewrite HK. unfold omap in IH. lia.
Qed.

(** C6 (use accounting completeness).  For every allocation the
    collector, run as [optimizeAllocBox] runs it, returns buckets in
    which no entry names an ignored bookkeeping instruction (stack
    deallocation, retain, release, raw-reference deallocation), and the
    total number of entries over all buckets is the sum, over the other
    uses in the address's use list, of the element span of the pointee
    type. *)
Theorem use_accounting_complete (M : SILModule) (ABI : SILInstruction)
        (ElementType : SILType) :
  let Pointer := boxAddress ABI ElementType in
  let PointeeType := getObjectType (getType Pointer) in
  let span := getNumElements (getSwiftRValueType PointeeType) M in
  exists Uses : list ElementUses,
    collectAllocationUses M Pointer
      (freshBuckets (getNumElements (getSwiftRValueType ElementType) M)) 0
    = Some Uses
    /\ (forall Bucket User Kind,
           In Bucket Uses -> In (User, Kind) Bucket -> isIgnoredUser User = false)
    /\ totalEntries Uses
       = zsum (map (fun UI => if isIgnoredUser (getUser UI) then 0 else span)
                   (getUses M Pointer)).
Proof.
  intros Pointer PointeeType span.
  eexists. split; [apply collectAllocationUses_box|]. split.
  - intros Bucket User Kind HB HU.
    apply list_elem_of_In, elem_of_replicate in HB as [-> _].
    apply in_recordedUses in HU as (UI & _ & <- & HK).
    destruct (isIgnoredUser (getUser UI)) eqn:HI; [|reflexivity].
    apply (proj2 (recordedKind_None M UI)) in HI. congruence.
  - rewrite totalEntries_replicate.
    pose proof (getNumElements_range (getSwiftRValueType ElementType) M) as He.
    rewrite Z2Nat.id by lia. rewrite Z.mul_comm. apply recorded_count.
Qed.

Lemma in_box_bucket M ABI ElementType Bucket User Kind :
  In Bucket (replicate
               (Z.to_nat (getNumElements (getSwiftRValueType ElementType) M))
               (omap (recordedUse M) (getUses M (boxAddress ABI ElementType)))) ->
  In (User, Kind) Bucket <->
  exists k Op, In User (allInsts M)
               /\ getAllOperands User !! k = Some Op
               /\ sameValue (boxAddress ABI ElementType) Op = true
               /\ recordedKind M (mkOperand User (Z.of_nat k)) = Some Kind.
Proof.
  intros HB. apply list_elem_of_In, elem_of_replicate in HB as [-> _].
  rewrite in_recordedUses. split.
  - intros (UI & HIn & <- & HK).
    apply in_getUses in HIn as (HI & k & Op & Hk & HS & HN).
    exists k, Op. repeat split; try assumption.
    destruct UI as [U n]; simpl in *. now subst n.
  - intros (k & Op & HI & Hk & HS & HK).
    exists (mkOperand User (Z.of_nat k)). split; [|split; [reflexivity|assumption]].
    apply in_getUses. simpl. split; [assumption|]. exists k, Op. auto.
Qed.

Lemma recordedKind_store M UI Src Dest :
  getKind (getUser UI) = StoreInst Src Dest ->
  recordedKind M UI = Some (if getOperandNumber UI =? 1 then Store else Escape).
Proof.
  intros HK. unfold recordedKind, isIgnoredUser, isa_DeallocStackInst, isa_RetainInst,
    isa_ReleaseInst, isa_DeallocRefInst, isa_LoadInst, isa_StoreInst.
  rewrite HK. simpl. now destruct (getOperandNumber UI =? 1).
Qed.

Lemma recordedKind_call M UI Callee Args :
  getKind (getUser UI) = ApplyInst Callee Args
  \/ getKind (getUser UI) = PartialApplyInst Callee Args ->
  recordedKind M UI
  = Some (if byRefPosition (getFunctionTypeInfo M (getType Callee))
                           (wrap (getOperandNumber UI - 1))
          then ByrefUse else Escape).
Proof.
  intros HK. unfold recordedKind, isIgnoredUser, isa_DeallocStackInst, isa_RetainInst,
    isa_ReleaseInst, isa_DeallocRefInst, isa_LoadInst, isa_StoreInst.
  destruct HK as [HK|HK]; rewrite HK; simpl; now destruct (byRefPosition _ _).
Qed.

(** C7 (stores to the allocation and stores of its address).  In the
    buckets the collector returns for an allocation, a store
    instruction has a [Store] entry, in the bucket of every spanned
    element, exactly when the address is its destination operand, and
    an [Escape] entry exactly when the address is the value it stores;
    it is never recorded under another kind. *)
Theorem store_use_classification (M : SILModule) (ABI : SILInstruction)
        (ElementType : SILType) :
  let Pointer := boxAddress ABI ElementType in
  let span := getNumElements (getSwiftRValueType ElementType) M in
  exists Uses : list ElementUses,
    collectAllocationUses M Pointer (freshBuckets span) 0 = Some Uses
    /\ length Uses = Z.to_nat span
    /\ forall User Src Dest Bucket,
        In User (allInsts M) ->
        getKind User = StoreInst Src Dest ->
        In Bucket Uses ->
        (In (User, Store) Bucket <-> sameValue Pointer Dest = true)
        /\ (In (User, Escape) Bucket <-> sameValue Pointer Src = true)
        /\ ~ In (User, Load) Bucket
        /\ ~ In (User, ByrefUse) Bucket.
Proof.
  intros Pointer span. subst Pointer span.
  eexists. split; [apply collectAllocationUses_box|].
  split; [apply length_replicate|].
  intros User Src Dest Bucket HIn HK HB.
  pose proof (fun Kind => in_box_bucket M ABI ElementType Bucket User Kind HB) as Hin.
  assert (Hkind : forall k, recordedKind M (mkOperand User (Z.of_nat k))
                            = Some (if Z.of_nat k =? 1 then Store else Escape)).
  { intros k. now apply (recordedKind_store M (mkOperand User (Z.of_nat k)) Src Dest). }
  assert (Hops : getAllOperands User = [Src; Dest])
    by (unfold getAllOperands; now rewrite HK).
  repeat split.
  - intros H. apply Hin in H as (k & Op & _ & Hk & HS & HR).
    rewrite Hkind in HR. rewrite Hops in Hk.
    destruct k as [|[|k]]; simpl in *; try discriminate. congruence.
  - intros HS. apply Hin. exists 1%nat, Dest. rewrite Hops, Hkind. auto.
  - intros H. apply Hin in H as (k & Op & _ & Hk & HS & HR).
    rewrite Hkind in HR. rewrite Hops in Hk.
    destruct k as [|[|k]]; simpl in *; try discriminate. congruence.
  - intros HS. apply Hin. exists 0%nat, Src. rewrite Hops, Hkind. auto.
  - intros H. apply Hin in H as (k & Op & _ & _ & _ & HR).
    rewrite Hkind in HR. destruct (Z.of_nat k =? 1); discriminate.
  - intros H. apply Hin in H as (k & Op & _ & _ & _ & HR).
    rewrite Hkind in HR. destruct (Z.of_nat k =? 1); discriminate.
Qed.

Lemma byRefPosition_true FTI (P : nat) :
  byRefPosition FTI (Z.of_nat P) = true <->
  (P = 0%nat /\ hasIndirectReturn FTI = true)
  \/ is_LValueType (getSwiftArgumentType FTI (Z.of_nat P)) = true.
Proof.
  unfold byRefPosition. rewrite orb_true_iff, andb_true_iff, Z.eqb_eq.
  split; (intros [[H1 H2]|H]; [left; split; [lia|assumption]|right; assumption]).
Qed.

(** C8 (calls).  In the buckets the collector returns for an
    allocation, a call (direct or partial) that does not use the
    address as its callee has a [ByrefUse] entry, in the bucket of every
    spanned element, exactly when it passes the address at argument
    position 0 of a callee with an indirect return or at an argument
    position whose parameter type is by-reference, and an [Escape]
    entry exactly when it passes the address at another argument
    position; it is never recorded as a [Load] or a [Store]. *)
Theorem call_use_classification (M : SILModule) (ABI : SILInstruction)
        (ElementType : SILType) :
  let Pointer := boxAddress ABI ElementType in
  let span := getNumElements (getSwiftRValueType ElementType) M in
  exists Uses : list ElementUses,
    collectAllocationUses M Pointer (freshBuckets span) 0 = Some Uses
    /\ length Uses = Z.to_nat span
    /\ forall User Callee Args Bucket,
        In User (allInsts M) ->
        getKind User = ApplyInst Callee Args
        \/ getKind User = PartialApplyInst Callee Args ->
        sameValue Pointer Callee = false ->
        Z.of_nat (length Args) < UINT_MOD ->
        In Bucket Uses ->
        let FTI := getFunctionTypeInfo M (getType Callee) in
        let byRefOrIndirectReturn (P : nat) :=
          (P = 0%nat /\ hasIndirectReturn FTI = true)
          \/ is_LValueType (getSwiftArgumentType FTI (Z.of_nat P)) = true in
        (In (User, ByrefUse) Bucket <->
         exists P Arg, Args !! P = Some Arg /\ sameValue Pointer Arg = true
                       /\ byRefOrIndirectReturn P)
        /\ (In (User, Escape) Bucket <->
            exists P Arg, Args !! P = Some Arg /\ sameValue Pointer Arg = true
                          /\ ~ byRefOrIndirectReturn P)
        /\ ~ In (User, Load) Bucket
        /\ ~ In (User, Store) Bucket.
Proof.
  intros Pointer span. subst Pointer span.
  eexists. split; [apply collectAllocationUses_box|].
  split; [apply length_replicate|].
  intros User Callee Args Bucket HIn HK HC HL HB FTI byRef.
  pose proof (fun Kind => in_box_bucket M ABI ElementType Bucket User Kind HB) as Hin.
  assert (Hops : getAllOperands User = Callee :: Args)
    by (unfold getAllOperands; destruct HK as [HK|HK]; now rewrite HK).
  assert (Hkind : forall P, (P < length Args)%nat ->
            recordedKind M (mkOperand User (Z.of_nat (S P)))
            = Some (if byRefPosition FTI (Z.of_nat P) then ByrefUse else Escape)).
  { intros P HP.
    rewrite (recordedKind_call M (mkOperand User (Z.of_nat (S P))) Callee Args)
      by assumption.
    simpl getOperandNumber.
    replace (Z.of_nat (S P) - 1) with (Z.of_nat P) by lia.
    rewrite wrap_small by lia. reflexivity. }
  assert (Harg : forall Kind,
            In (User, Kind) Bucket <->
            exists P Arg, Args !! P = Some Arg
                          /\ sameValue (boxAddress ABI ElementType) Arg = true
                          /\ (if byRefPosition FTI (Z.of_nat P) then ByrefUse else Escape)
                             = Kind).
  { intros Kind. rewrite Hin. split.
    - intros (k & Op & _ & Hk & HS & HR). rewrite Hops in Hk.
      destruct k as [|P]; simpl in Hk.
      + injection Hk as ->. congruence.
      + exists P, Op. rewrite Hkind in HR by (eapply lookup_lt_Some; eassumption).
        repeat split; [assumption..|congruence].
    - intros (P & Arg & HP & HS & HR). exists (S P), Arg.
      rewrite Hops, Hkind by (eapply lookup_lt_Some; eassumption).
      repeat split; [assumption..|congruence]. }
  repeat split.
  - intros H. apply Harg in H as (P & Arg & HP & HS & HR).
    exists P, Arg. repeat split; [assumption..|].
    apply byRefPosition_true. destruct (byRefPosition FTI (Z.of_nat P)); congruence.
  - intros (P & Arg & HP & HS & HR). apply Harg. exists P, Arg.
    apply byRefPosition_true in HR. fold FTI in HR. now rewrite HR.
  - intros H. apply Harg in H as (P & Arg & HP & HS & HR).
    exists P, Arg. repeat split; [assumption..|].
    intros Hby. apply byRefPosition_true in Hby. fold FTI in Hby.
    rewrite Hby in HR. discriminate.
  - intros (P & Arg & HP & HS & HR). apply Harg. exists P, Arg.
    repeat split; [assumption..|].
    destruct (byRefPosition FTI (Z.of_nat P)) eqn:Hby; [|reflexivity].
    exfalso. apply HR. now apply byRefPosition_true.
  - intros H. apply Harg in H as (P & Arg & _ & _ & HR).
    destruct (byRefPosition _ _); discriminate.
  - intros H. apply Harg in H as (P & Arg & _ & _ & HR).
    destruct (byRefPosition _ _); discriminate.
Qed.

(** ** Escape seeding *)

Lemma in_escapeBlocks (Uses : ElementUses) (B : BlockID) :
  In B (escapeBlocks Uses) <->
  exists User, In (User, Escape) Uses /\ getParent User = B.
Proof.
  unfold escapeBlocks. rewrite <- list_elem_of_In, list_elem_of_omap. split.
  - intros ([User Kind] & HIn & HK). simpl in HK.
    destruct Kind; try discriminate. injection HK as <-.
    exists User. split; [now apply list_elem_of_In|reflexivity].
  - intros (User & HIn & <-). exists (User, Escape).
    split; [now apply list_elem_of_In|reflexivity].
Qed.

Section ElementPromotion_fold.
Let step (EP : ElementPromotion) (Use : SILInstruction * UseKind)
  : ElementPromotion :=
  match Use.2 with
  | Escape =>
      mkElementPromotion (EP_TheAllocBox EP) (EP_Uses EP)
        (setEscapeInfo (EP_PerBlockInfo EP) (getParent Use.1) EscapeKind.Yes)
        true
  | _ => EP
  end.

Lemma seed_fold_lookup (Uses : ElementUses) : forall EP (B : BlockID),
  EP_PerBlockInfo (fold_left step Uses EP) !! B
  = if decide (B ∈ escapeBlocks Uses)
    then Some (mkLiveOut EscapeKind.Yes)
    else EP_PerBlockInfo EP !! B.
Proof.
  induction Uses as [|[User Kind] Rest IH]; intros EP B.
  - destruct (decide (B ∈ escapeBlocks [])) as [H|_]; [|reflexivity].
    now apply elem_of_nil in H.
  - simpl fold_left. rewrite IH. unfold step.
    destruct Kind; try reflexivity.
    change (escapeBlocks ((User, Escape) :: Rest))
      with (getParent User :: escapeBlocks Rest).
    simpl. unfold setEscapeInfo.
    destruct (decide (B ∈ escapeBlocks Rest)) as [HR|HR].
    + rewrite decide_True by (apply elem_of_cons; now right). reflexivity.
    + destruct (decide (getParent User = B)) as [->|Hne].
      * rewrite decide_True by (apply elem_of_cons; now left). apply lookup_insert_eq.
      * rewrite decide_False
          by (rewrite elem_of_cons; intros [?|?]; [congruence|contradiction]).
        now apply lookup_insert_ne.
Qed.

Lemma seed_fold_flag (Uses : ElementUses) : forall EP,
  EP_HasAnyEscape (fold_left step Uses EP)
  = EP_HasAnyEscape EP || negb (Nat.eqb (length (escapeBlocks Uses)) 0).
Proof.
  induction Uses as [|[User Kind] Rest IH]; intros EP; simpl.
  - now rewrite orb_false_r.
  - rewrite IH. unfold step. simpl.
    destruct Kind; simpl; try reflexivity. now rewrite orb_true_r.
Qed.
End ElementPromotion_fold.

Lemma ElementPromotion_new_lookup ABI (Uses : ElementUses) PBI (B : BlockID) :
  EP_PerBlockInfo (ElementPromotion_new ABI Uses PBI) !! B
  = if decide (B ∈ escapeBlocks Uses)
    then Some (mkLiveOut EscapeKind.Yes) else None.
Proof.
  unfold ElementPromotion_new. rewrite seed_fold_lookup. simpl.
  unfold DenseMap_clear. now rewrite lookup_empty.
Qed.

(** C3, amended.  After the constructor of [ElementPromotion] has run
    for an element, a block is marked [EscapeKind::Yes] if and only if
    it holds at least one [Escape] use of that element; every other
    block, whether or not it can be reached from such a block, has no
    entry in the map (its state is the default, [Unknown]).  The flag
    [HasAnyEscape] is set exactly when the element has an [Escape]
    use.  The map that comes in is cleared first. *)
Theorem escape_seeding_marks_only_escape_blocks
        (ABI : SILInstruction) (Uses : ElementUses)
        (PBI : gmap BlockID LiveOutBlockState) (B : BlockID) :
  let EP := ElementPromotion_new ABI Uses PBI in
  (EP_PerBlockInfo EP !! B = Some (mkLiveOut EscapeKind.Yes) <->
   exists User, In (User, Escape) Uses /\ getParent User = B)
  /\ (EP_PerBlockInfo EP !! B = None <->
      ~ exists User, In (User, Escape) Uses /\ getParent User = B)
  /\ (EP_HasAnyEscape EP = true <-> exists User, In (User, Escape) Uses).
Proof.
  intros EP. subst EP. rewrite ElementPromotion_new_lookup.
  rewrite <- in_escapeBlocks, <- list_elem_of_In.
  split; [|split].
  - destruct (decide (B ∈ escapeBlocks Uses)) as [HB|HB]; split;
      intros H; (assumption || reflexivity || discriminate || contradiction).
  - destruct (decide (B ∈ escapeBlocks Uses)) as [HB|HB]; split;
      intros H; (assumption || reflexivity || discriminate || contradiction).
  - unfold ElementPromotion_new. rewrite seed_fold_flag. simpl.
    destruct (escapeBlocks Uses) as [|B0 Bs] eqn:HE; simpl.
    + split; [discriminate|]. intros (User & HU).
      assert (HB : In (getParent User) (escapeBlocks Uses))
        by (apply in_escapeBlocks; eauto).
      rewrite HE in HB. destruct HB.
    + split; [|reflexivity]. intros _.
      assert (HB : In B0 (escapeBlocks Uses)) by (rewrite HE; now left).
      apply in_escapeBlocks in HB as (User & HU & _). eauto.
Qed.

(** C3, the claim as stated, fails: in [escModule] the element escapes
    in [bb0], [bb1] is reachable from [bb0], and the constructor leaves
    [bb1] unmarked. *)
Lemma taint_is_not_propagated :
  let Bucket := escBucket in
  boxUses escModule escBox IntSIL = Some [Bucket]
  /\ rtc (CFGEdge escModule) (getParent escApply) (getParent escLoad)
  /\ EP_PerBlockInfo (ElementPromotion_new escBox Bucket ∅) !! getParent escLoad
     = None
  /\ ~ TaintIsForwardReachable escModule Bucket
         (EP_PerBlockInfo (ElementPromotion_new escBox Bucket ∅)).
Proof.
  intros Bucket.
  assert (Hreach : rtc (CFGEdge escModule) (getParent escApply) (getParent escLoad)).
  { apply rtc_once. exists escEntry. simpl. auto. }
  assert (Hnone : EP_PerBlockInfo (ElementPromotion_new escBox Bucket ∅)
                  !! getParent escLoad = None).
  { rewrite ElementPromotion_new_lookup.
    destruct (decide _) as [HIn|_]; [|reflexivity].
    apply list_elem_of_In in HIn. simpl in HIn. destruct HIn as [HIn|[]]. discriminate. }
  split; [reflexivity|]. split; [exact Hreach|]. split; [exact Hnone|].
  intros HT. specialize (HT (getParent escLoad)). rewrite Hnone in HT.
  destruct HT as [_ HT].
  assert (HN : @None LiveOutBlockState = Some (mkLiveOut EscapeKind.Yes));
    [|discriminate].
  apply HT. exists (getParent escApply), escApply.
  split; [simpl; auto|]. split; [reflexivity|exact Hreach].
Qed.

(** ** Driver *)

Lemma doIt_noop EP M : doIt EP M = M.
Proof.
  unfold doIt. induction (EP_Uses EP) as [|[User Kind] Rest IH]; simpl.
  - reflexivity.
  - destruct Kind; exact IH.
Qed.

Lemma promoteElements_noop ABI Buckets : forall PBI M,
  promoteElements ABI Buckets PBI M = M.
Proof.
  induction Buckets as [|Elt Rest IH]; intros PBI M; simpl; [reflexivity|].
  rewrite IH. apply doIt_noop.
Qed.

(** [optimizeAllocBox] never trips an assertion and changes nothing. *)
Lemma optimizeAllocBox_total M ABI ElementType :
  optimizeAllocBox M ABI ElementType = Some M.
Proof.
  unfold optimizeAllocBox. rewrite collectAllocationUses_box. simpl.
  now rewrite promoteElements_noop.
Qed.

(** The driver trips no assertion, whatever the module. *)
Lemma scanBlock_total Todo : forall M, is_Some (scanBlock Todo M).
Proof.
  induction Todo as [|Inst Rest IH]; intros M; simpl; [eauto|].
  destruct (dyn_cast_AllocBoxInst Inst); [|apply IH].
  rewrite optimizeAllocBox_total. simpl. apply IH.
Qed.

Lemma scanBlocks_total BBs : forall M, is_Some (scanBlocks BBs M).
Proof.
  induction BBs as [|BB Rest IH]; intros M; simpl; [eauto|].
  destruct (scanBlock_total (getInsts BB) M) as [M1 ->]. simpl. apply IH.
Qed.

Lemma performSILMemoryPromotion_total M : is_Some (performSILMemoryPromotion M).
Proof.
  unfold performSILMemoryPromotion. generalize M at 2.
  induction (getFunctions M) as [|Fn Rest IH]; intros M0; simpl; [eauto|].
  destruct (scanBlocks_total (getBlocks Fn) M0) as [M1 ->]. simpl. apply IH.
Qed.

Lemma allInsts_erasePtrs (E : list InstID) M :
  allInsts (erasePtrs E M) = filter (fun J => InstPtr J ∉ E) (allInsts M).
Proof.
  unfold allInsts, erasePtrs, blockInsts. simpl.
  induction (getFunctions M) as [|Fn Fns IH]; simpl; [reflexivity|].
  rewrite filter_app, IH. f_equal.
  induction (getBlocks Fn) as [|BB BBs IHB]; simpl; [reflexivity|].
  rewrite filter_app. f_equal. exact IHB.
Qed.

Lemma operandUses_nil P J : getAllOperands J = [] -> operandUses P J = [].
Proof. unfold operandUses. now intros ->. Qed.

Lemma flat_map_operandUses_filter P (E : list InstID) (l : list SILInstruction) :
  (forall J, In J l -> InstPtr J ∈ E -> getAllOperands J = []) ->
  flat_map (operandUses P) (filter (fun J => InstPtr J ∉ E) l)
  = flat_map (operandUses P) l.
Proof.
  induction l as [|J l IH]; intros HE; [reflexivity|].
  rewrite filter_cons. simpl.
  destruct (decide (InstPtr J ∉ E)) as [HJ|HJ]; simpl.
  - rewrite IH; [reflexivity|]. intros; apply HE; [now right|assumption].
  - rewrite IH by (intros; apply HE; [now right|assumption]).
    rewrite (operandUses_nil P J); [reflexivity|].
    apply HE; [now left|]. now apply dec_stable.
Qed.

Lemma getUses_erasePtrs M (E : list InstID) V :
  erasable M E -> getUses (erasePtrs E M) V = getUses M V.
Proof.
  intros HE. unfold getUses. rewrite allInsts_erasePtrs.
  now apply flat_map_operandUses_filter.
Qed.

Lemma use_empty_erasePtrs M (E : list InstID) J :
  erasable M E -> use_empty (erasePtrs E M) J = use_empty M J.
Proof.
  intros HE. unfold use_empty, ValueBase_uses. rewrite allInsts_erasePtrs.
  now rewrite flat_map_operandUses_filter.
Qed.

Lemma erasePtrs_erasePtrs (E1 E2 : list InstID) M :
  erasePtrs E2 (erasePtrs E1 M) = erasePtrs (E1 ++ E2) M.
Proof.
  unfold erasePtrs. simpl. f_equal.
  rewrite map_map. apply map_ext. intros Fn. simpl. f_equal.
  rewrite map_map. apply map_ext. intros BB. simpl. f_equal.
  rewrite list_filter_filter. apply list_filter_iff. intros J.
  rewrite elem_of_app. tauto.
Qed.

Lemma erasePtrs_nil M : erasePtrs [] M = M.
Proof.
  destruct M as [AO FTI Fns Ds]. unfold erasePtrs. simpl. f_equal.
  induction Fns as [|[N BBs] Fns IH]; simpl; [reflexivity|]. rewrite IH. f_equal.
  f_equal. clear IH. induction BBs as [|[B Is] BBs IH]; simpl; [reflexivity|].
  rewrite IH. f_equal. f_equal.
  induction Is as [|J Is IHI]; [reflexivity|].
  rewrite filter_cons_True by apply not_elem_of_nil. now rewrite IHI.
Qed.

Lemma uniquePtrs_inj M J K :
  uniquePtrs M -> In J (allInsts M) -> In K (allInsts M) ->
  InstPtr J = InstPtr K -> J = K.
Proof.
  unfold uniquePtrs. induction (allInsts M) as [|X l IH]; simpl; [tauto|].
  intros HN HJ HK Heq. apply NoDup_cons in HN as [HX HN].
  assert (Hmem : forall Y, In Y l -> InstPtr Y ∈ map InstPtr l).
  { intros Y HY. apply list_elem_of_In, in_map. exact HY. }
  destruct HJ as [<-|HJ], HK as [<-|HK]; auto.
  - exfalso. apply HX. rewrite Heq. now apply Hmem.
  - exfalso. apply HX. rewrite <- Heq. now apply Hmem.
Qed.

Lemma isDeadBox_no_operands M J : isDeadBox M J = true -> getAllOperands J = [].
Proof.
  unfold isDeadBox, dyn_cast_AllocBoxInst, getAllOperands.
  destruct (getKind J); try discriminate. reflexivity.
Qed.

Lemma in_deadBoxes M l P :
  P ∈ deadBoxes M l <-> exists A, In A l /\ isDeadBox M A = true /\ InstPtr A = P.
Proof.
  unfold deadBoxes. rewrite list_elem_of_In, in_map_iff. split.
  - intros (A & <- & HA). apply filter_In in HA as [H1 H2]. eauto.
  - intros (A & H1 & H2 & <-). exists A. split; [reflexivity|]. apply filter_In. auto.
Qed.

Lemma erasable_deadBoxes M l :
  uniquePtrs M -> (forall J, In J l -> In J (allInsts M)) ->
  erasable M (deadBoxes M l).
Proof.
  intros HU Hl J HJ HP. apply in_deadBoxes in HP as (A & HA & HD & Heq).
  assert (A = J) as -> by (eapply uniquePtrs_inj; eauto).
  now apply (isDeadBox_no_operands M).
Qed.

Lemma deadBoxes_app M l1 l2 :
  deadBoxes M (l1 ++ l2) = deadBoxes M l1 ++ deadBoxes M l2.
Proof. unfold deadBoxes. now rewrite List.filter_app, map_app. Qed.

Lemma deadBoxes_single M Inst :
  deadBoxes M [Inst] = if isDeadBox M Inst then [InstPtr Inst] else [].
Proof. unfold deadBoxes. simpl. now destruct (isDeadBox M Inst). Qed.

Lemma scanBlock_spec M (HU : uniquePtrs M) Todo : forall Done,
  (forall J, In J (Done ++ Todo) -> In J (allInsts M)) ->
  scanBlock Todo (erasePtrs (deadBoxes M Done) M)
  = Some (erasePtrs (deadBoxes M (Done ++ Todo)) M).
Proof.
  induction Todo as [|Inst Rest IH]; intros Done Hin.
  - now rewrite app_nil_r.
  - assert (HE : erasable M (deadBoxes M Done)).
    { apply erasable_deadBoxes; [assumption|].
      intros J HJ. apply Hin, in_or_app. now left. }
    assert (Hstep : forall M2,
               M2 = erasePtrs (deadBoxes M (Done ++ [Inst])) M ->
               scanBlock Rest M2
               = Some (erasePtrs (deadBoxes M (Done ++ Inst :: Rest)) M)).
    { intros M2 ->. rewrite IH; [now rewrite <- app_assoc|].
      intros J HJ. apply Hin. now rewrite <- app_assoc in HJ. }
    simpl.
    destruct (dyn_cast_AllocBoxInst Inst) as [ElementType|] eqn:HD.
    + rewrite optimizeAllocBox_total. simpl.
      rewrite use_empty_erasePtrs by assumption.
      apply Hstep. rewrite deadBoxes_app, deadBoxes_single.
      unfold isDeadBox. rewrite HD.
      destruct (use_empty M Inst).
      * unfold eraseFromParent. apply erasePtrs_erasePtrs.
      * now rewrite app_nil_r.
    + apply Hstep. rewrite deadBoxes_app, deadBoxes_single.
      unfold isDeadBox. rewrite HD. now rewrite app_nil_r.
Qed.

Lemma scanBlocks_spec M (HU : uniquePtrs M) BBs : forall Done,
  (forall J, In J (Done ++ flat_map getInsts BBs) -> In J (allInsts M)) ->
  scanBlocks BBs (erasePtrs (deadBoxes M Done) M)
  = Some (erasePtrs (deadBoxes M (Done ++ flat_map getInsts BBs)) M).
Proof.
  induction BBs as [|BB Rest IH]; intros Done Hin; simpl.
  - now rewrite app_nil_r.
  - simpl in Hin. rewrite app_assoc in Hin.
    rewrite scanBlock_spec; [simpl|assumption|].
    + rewrite IH by assumption. now rewrite app_assoc.
    + intros J HJ. apply Hin, in_or_app. now left.
Qed.

Lemma scanFunctions_spec M (HU : uniquePtrs M) Fns : forall Done,
  (forall J, In J (Done ++ flat_map blockInsts Fns) -> In J (allInsts M)) ->
  scanFunctions Fns (erasePtrs (deadBoxes M Done) M)
  = Some (erasePtrs (deadBoxes M (Done ++ flat_map blockInsts Fns)) M).
Proof.
  induction Fns as [|Fn Rest IH]; intros Done Hin; simpl.
  - now rewrite app_nil_r.
  - simpl in Hin. rewrite app_assoc in Hin.
    rewrite scanBlocks_spec; [simpl|assumption|].
    + unfold blockInsts in IH at 2. rewrite IH by assumption.
      unfold blockInsts at 2. now rewrite app_assoc.
    + intros J HJ. apply Hin, in_or_app. now left.
Qed.

Lemma performSILMemoryPromotion_erasePtrs M :
  uniquePtrs M ->
  performSILMemoryPromotion M
  = Some (erasePtrs (deadBoxes M (allInsts M)) M).
Proof.
  intros HU. unfold performSILMemoryPromotion.
  rewrite <- (erasePtrs_nil M) at 2.
  change (@nil InstID) with (deadBoxes M []).
  rewrite scanFunctions_spec; [reflexivity|assumption|].
  intros J HJ. exact HJ.
Qed.

Lemma in_block_allInsts M Fn BB J :
  In Fn (getFunctions M) -> In BB (getBlocks Fn) -> In J (getInsts BB) ->
  In J (allInsts M).
Proof.
  intros HF HB HJ. unfold allInsts. apply in_flat_map. exists Fn.
  split; [assumption|]. unfold blockInsts. apply in_flat_map. eauto.
Qed.

Lemma in_deadBoxes_iff M J :
  uniquePtrs M -> In J (allInsts M) ->
  InstPtr J ∈ deadBoxes M (allInsts M) <-> isDeadBox M J = true.
Proof.
  intros HU HJ. rewrite in_deadBoxes. split.
  - intros (A & HA & HD & Heq).
    assert (A = J) as -> by (eapply uniquePtrs_inj; eauto). exact HD.
  - intros HD. eauto.
Qed.

Lemma filter_deadBoxes M (l : list SILInstruction) :
  uniquePtrs M -> (forall J, In J l -> In J (allInsts M)) ->
  filter (fun J => InstPtr J ∉ deadBoxes M (allInsts M)) l
  = List.filter (fun J => negb (isDeadBox M J)) l.
Proof.
  intros HU. induction l as [|J l IH]; intros Hin; [reflexivity|].
  rewrite filter_cons. simpl.
  rewrite IH by (intros; apply Hin; now right).
  pose proof (in_deadBoxes_iff M J HU (Hin J (or_introl eq_refl))) as HJ.
  destruct (decide (InstPtr J ∉ deadBoxes M (allInsts M))) as [Hd|Hd];
    destruct (isDeadBox M J); simpl; try reflexivity.
  - exfalso. apply Hd. now apply HJ.
  - exfalso. apply Hd. intros Hd'. apply HJ in Hd'. discriminate.
Qed.

Lemma erasePtrs_deadBoxes M :
  uniquePtrs M -> erasePtrs (deadBoxes M (allInsts M)) M = eraseDeadBoxes M.
Proof.
  intros HU. unfold erasePtrs, eraseDeadBoxes. f_equal.
  apply map_ext_in. intros Fn HF. f_equal.
  apply map_ext_in. intros BB HB. f_equal.
  apply filter_deadBoxes; [assumption|].
  intros J HJ. eapply in_block_allInsts; eauto.
Qed.

(** The driver is total: it returns the module with exactly the dead
    boxes unlinked. *)
Lemma performSILMemoryPromotion_spec M :
  uniquePtrs M -> performSILMemoryPromotion M = Some (eraseDeadBoxes M).
Proof.
  intros HU. rewrite performSILMemoryPromotion_erasePtrs by assumption.
  now rewrite erasePtrs_deadBoxes.
Qed.

Lemma allInsts_eraseDeadBoxes M :
  allInsts (eraseDeadBoxes M)
  = List.filter (fun J => negb (isDeadBox M J)) (allInsts M).
Proof.
  unfold allInsts, eraseDeadBoxes, blockInsts. simpl.
  induction (getFunctions M) as [|Fn Fns IH]; simpl; [reflexivity|].
  rewrite List.filter_app, IH. f_equal.
  induction (getBlocks Fn) as [|BB BBs IHB]; simpl; [reflexivity|].
  rewrite List.filter_app. f_equal. exact IHB.
Qed.

Lemma in_allInsts_eraseDeadBoxes M J :
  In J (allInsts (eraseDeadBoxes M)) <->
  In J (allInsts M) /\ isDeadBox M J = false.
Proof.
  rewrite allInsts_eraseDeadBoxes, filter_In, negb_true_iff. tauto.
Qed.

Lemma NoDup_map_filter {A B} (f : A -> B) (P : A -> bool) (l : list A) :
  NoDup (map f l) -> NoDup (map f (List.filter P l)).
Proof.
  induction l as [|x l IH]; simpl; [auto|].
  intros HN. apply NoDup_cons in HN as [Hx HN].
  destruct (P x); simpl; [|auto].
  apply NoDup_cons. split; [|auto].
  intros Hin. apply Hx. apply list_elem_of_In in Hin. apply list_elem_of_In.
  apply in_map_iff in Hin as (y & <- & Hy). apply filter_In in Hy as [Hy _].
  now apply in_map.
Qed.

Lemma uniquePtrs_eraseDeadBoxes M : uniquePtrs M -> uniquePtrs (eraseDeadBoxes M).
Proof.
  unfold uniquePtrs. rewrite allInsts_eraseDeadBoxes. apply NoDup_map_filter.
Qed.

Lemma getUses_eraseDeadBoxes M V :
  uniquePtrs M -> getUses (eraseDeadBoxes M) V = getUses M V.
Proof.
  intros HU. rewrite <- erasePtrs_deadBoxes by assumption.
  apply getUses_erasePtrs. now apply erasable_deadBoxes.
Qed.

Lemma isDeadBox_eraseDeadBoxes M J :
  uniquePtrs M -> isDeadBox (eraseDeadBoxes M) J = isDeadBox M J.
Proof.
  intros HU. unfold isDeadBox. destruct (dyn_cast_AllocBoxInst J); [|reflexivity].
  rewrite <- erasePtrs_deadBoxes by assumption.
  apply use_empty_erasePtrs. now apply erasable_deadBoxes.
Qed.

Lemma filter_all {A} (P : A -> bool) (l : list A) :
  (forall x, In x l -> P x = true) -> List.filter P l = l.
Proof.
  induction l as [|x l IH]; simpl; intros H; [reflexivity|].
  rewrite (H x) by now left. f_equal. apply IH. intros; apply H. now right.
Qed.

Lemma filter_none {A} (P : A -> bool) (l : list A) :
  (forall x, In x l -> P x = false) -> List.filter P l = [].
Proof.
  induction l as [|x l IH]; simpl; intros H; [reflexivity|].
  rewrite (H x) by now left. apply IH. intros; apply H. now right.
Qed.

Lemma eraseDeadBoxes_idempotent M :
  uniquePtrs M -> eraseDeadBoxes (eraseDeadBoxes M) = eraseDeadBoxes M.
Proof.
  intros HU.
  rewrite <- (erasePtrs_deadBoxes (eraseDeadBoxes M))
    by now apply uniquePtrs_eraseDeadBoxes.
  unfold deadBoxes. rewrite filter_none; [apply erasePtrs_nil|].
  intros J HJ. rewrite isDeadBox_eraseDeadBoxes by assumption.
  now apply in_allInsts_eraseDeadBoxes in HJ.
Qed.

(** C10 (frame).  A run of the pass returns the module in which the
    [alloc_box] instructions with an empty use list have been unlinked
    and nothing else differs: an instruction that is not such an
    allocation (every load, store, call and other use, and every
    allocation that still has a use) stays in its block, in order, as it
    was; type queries and diagnostics are the same. *)
Theorem promotion_only_erases_dead_boxes (M : SILModule) :
  uniquePtrs M ->
  performSILMemoryPromotion M = Some (eraseDeadBoxes M)
  /\ (forall J, In J (allInsts (eraseDeadBoxes M)) <->
                In J (allInsts M)
                /\ ~ (is_Some (dyn_cast_AllocBoxInst J) /\ use_empty M J = true))
  /\ (forall V, getUses (eraseDeadBoxes M) V = getUses M V).
Proof.
  intros HU. split; [now apply performSILMemoryPromotion_spec|]. split.
  - intros J. rewrite in_allInsts_eraseDeadBoxes. unfold isDeadBox.
    destruct (dyn_cast_AllocBoxInst J) as [T|]; split; intros [HJ HD];
      (split; [exact HJ|]).
    + intros [_ HE]. congruence.
    + destruct (use_empty M J); [|reflexivity]. exfalso. apply HD. split; eauto.
    + intros [[T HT] _]. discriminate.
    + reflexivity.
  - intros V. now apply getUses_eraseDeadBoxes.
Qed.

(** C9 (idempotence).  The entry point returns a module on which a
    second run returns that same module: nothing more is rewritten or
    erased. *)
Theorem memory_promotion_idempotent (M : SILModule) :
  uniquePtrs M ->
  exists M', performSILMemoryPromotion M = Some M'
             /\ performSILMemoryPromotion M' = Some M'.
Proof.
  intros HU. exists (eraseDeadBoxes M).
  split; [now apply performSILMemoryPromotion_spec|].
  rewrite performSILMemoryPromotion_spec by now apply uniquePtrs_eraseDeadBoxes.
  now rewrite eraseDeadBoxes_idempotent.
Qed.

(** ** Promotion and initialization checking *)

Lemma boxUses_bucket M ABI ElementType Uses (Elt : nat) Bucket :
  boxUses M ABI ElementType = Some Uses ->
  Uses !! Elt = Some Bucket ->
  Bucket = omap (recordedUse M) (getUses M (boxAddress ABI ElementType)).
Proof.
  unfold boxUses. rewrite collectAllocationUses_box. intros [= <-] HB.
  now apply lookup_replicate in HB as [-> _].
Qed.

Lemma boxUses_eraseDeadBoxes M ABI ElementType :
  uniquePtrs M ->
  boxUses (eraseDeadBoxes M) ABI ElementType = boxUses M ABI ElementType.
Proof.
  intros HU. unfold boxUses. rewrite !collectAllocationUses_box.
  rewrite getUses_eraseDeadBoxes by assumption.
  rewrite (getNumElements_ext _ (eraseDeadBoxes M) M) by reflexivity.
  reflexivity.
Qed.

Lemma recordedKind_Load M UI :
  recordedKind M UI = Some Load -> isa_LoadInst (getUser UI) = true.
Proof.
  unfold recordedKind. destruct (isIgnoredUser _); [discriminate|].
  destruct (isa_LoadInst _); [reflexivity|].
  destruct (isa_StoreInst _ && _); [discriminate|].
  destruct (getKind _); try discriminate; destruct (byRefPosition _ _); discriminate.
Qed.

Lemma getUses_ValueBase_uses M V UI :
  In UI (getUses M V) -> In UI (ValueBase_uses M (getDef V)).
Proof.
  unfold getUses, ValueBase_uses, operandUses. rewrite !in_flat_map.
  intros (J & HJ & HU). exists J. split; [assumption|].
  apply in_operandUsesFrom in HU as (HUser & k & Op & Hk & HS & HN).
  apply in_operandUsesFrom. split; [assumption|]. exists k, Op.
  repeat split; try assumption.
  unfold sameValue in HS. now apply andb_prop in HS as [HS _].
Qed.

(** A load recorded for an element, and the allocation it reads, are
    instructions of the module that the driver does not erase. *)
Lemma recorded_load_survives M Fn ABI ElementType Elt Bucket L :
  elementUses M Fn ABI ElementType Elt Bucket ->
  In (L, Load) Bucket ->
  In L (allInsts (eraseDeadBoxes M)) /\ In ABI (allInsts (eraseDeadBoxes M)).
Proof.
  intros (HFn & HABI & HD & Uses & HU & HB) HL.
  rewrite (boxUses_bucket _ _ _ _ _ _ HU HB) in HL.
  apply in_recordedUses in HL as (UI & HIn & <- & HK).
  apply recordedKind_Load in HK.
  rewrite !in_allInsts_eraseDeadBoxes. split; split.
  - now apply in_getUses in HIn as [HIn _].
  - unfold isDeadBox, dyn_cast_AllocBoxInst. unfold isa_LoadInst in HK.
    destruct (getKind (getUser UI)); try discriminate. reflexivity.
  - unfold allInsts. apply in_flat_map. eauto.
  - unfold isDeadBox. rewrite HD. unfold use_empty.
    apply getUses_ValueBase_uses in HIn. simpl in HIn.
    destruct (ValueBase_uses M (InstPtr ABI)); [destruct HIn|reflexivity].
Qed.

(** What the code does with an element that could be promoted (no
    [Escape], no [ByrefUse], every load with a single reaching store on
    every path): after the run every such load is still in the module,
    the allocation is still there, every use list is what it was (no
    use of a load's result has been redirected), and the element's
    bucket still holds the same [Load] uses. *)
Theorem promotion_leaves_loads_in_place
        (M : SILModule) (Fn : SILFunction) (ABI : SILInstruction)
        (ElementType : SILType) (Elt : nat) (Bucket : ElementUses)
        (L : SILInstruction) :
  uniquePtrs M ->
  elementUses M Fn ABI ElementType Elt Bucket ->
  (forall User, ~ In (User, Escape) Bucket /\ ~ In (User, ByrefUse) Bucket) ->
  (forall L', In (L', Load) Bucket ->
              uniqueReachingStore Fn (boxAddress ABI ElementType) L') ->
  In (L, Load) Bucket ->
  exists M',
    performSILMemoryPromotion M = Some M'
    /\ In L (allInsts M')
    /\ In ABI (allInsts M')
    /\ (forall V, getUses M' V = getUses M V)
    /\ boxUses M' ABI ElementType = boxUses M ABI ElementType.
Proof.
  intros HU HE _ _ HL. exists (eraseDeadBoxes M).
  destruct (recorded_load_survives _ _ _ _ _ _ _ HE HL) as [H1 H2].
  split; [now apply performSILMemoryPromotion_spec|].
  split; [exact H1|]. split; [exact H2|]. split.
  - intros V. now apply getUses_eraseDeadBoxes.
  - now apply boxUses_eraseDeadBoxes.
Qed.

(** What the code does with a load that some path from the entry
    reaches with no store before it: the diagnostics of the module are
    unchanged, and the load is neither promoted nor deleted (it is
    still in the module and every use list is what it was). *)
Theorem uninitialized_load_is_left_unreported
        (M : SILModule) (Fn : SILFunction) (ABI : SILInstruction)
        (ElementType : SILType) (Elt : nat) (Bucket : ElementUses)
        (L : SILInstruction) :
  uniquePtrs M ->
  elementUses M Fn ABI ElementType Elt Bucket ->
  In (L, Load) Bucket ->
  readBeforeInit Fn (boxAddress ABI ElementType) L ->
  exists M',
    performSILMemoryPromotion M = Some M'
    /\ getDiags M' = getDiags M
    /\ diagnosticsAt M' L = diagnosticsAt M L
    /\ In L (allInsts M')
    /\ (forall V, getUses M' V = getUses M V).
Proof.
  intros HU HE HL _. exists (eraseDeadBoxes M).
  destruct (recorded_load_survives _ _ _ _ _ _ _ HE HL) as [H1 _].
  split; [now apply performSILMemoryPromotion_spec|].
  split; [reflexivity|]. split; [reflexivity|]. split; [exact H1|].
  intros V. now apply getUses_eraseDeadBoxes.
Qed.

(** ** The sample programs *)

Ltac solve_uniquePtrs :=
  unfold uniquePtrs; apply (bool_decide_unpack _); vm_compute; exact Logic.I.

Lemma single_block_paths Name BB Path :
  successors BB = [] -> EntryPath (mkFunction Name [BB]) Path -> Path = [BB].
Proof.
  intros HS HP.
  induction HP as [Entry Rest HE|Next Cur Prev HP IH HN HE].
  - simpl in HE. now injection HE as <- _.
  - injection IH as -> _. rewrite HS in HE. destruct HE.
Qed.

Lemma line_elementUses : elementUses lineModule lineFn lineBox IntSIL 0 lineBucket.
Proof.
  unfold elementUses. split; [simpl; auto|]. split; [simpl; auto|].
  split; [reflexivity|]. exists [lineBucket]. split; reflexivity.
Qed.

Lemma line_no_escape User :
  ~ In (User, Escape) lineBucket /\ ~ In (User, ByrefUse) lineBucket.
Proof. split; intros [H|[H|[]]]; discriminate. Qed.

Lemma line_uniqueReachingStore L :
  In (L, Load) lineBucket -> uniqueReachingStore lineFn lineAddr L.
Proof.
  intros [H|[H|[]]]; [discriminate|]. injection H as <-.
  exists lineStore. intros Path Pos [HP (Cur & Prev & -> & HPos)].
  apply single_block_paths in HP; [|reflexivity]. injection HP as -> ->.
  destruct Pos as [|[|[|[|[|Pos]]]]]; cbv in HPos; try discriminate HPos.
  reflexivity.
Qed.

Lemma raw_elementUses : elementUses rawModule rawFn rawBox IntSIL 0 rawBucket.
Proof.
  unfold elementUses. split; [simpl; auto|]. split; [simpl; auto|].
  split; [reflexivity|]. exists [rawBucket]. split; reflexivity.
Qed.

Lemma raw_readBeforeInit : readBeforeInit rawFn rawAddr rawLoad.
Proof.
  exists [rawBlock], 1%nat. split; [|reflexivity]. split.
  - now apply (EntryPath_entry rawFn rawBlock []).
  - exists rawBlock, []. split; reflexivity.
Qed.

(** C1 (promotion soundness) is what the pass is documented to do
    ("Promote alloc_box uses into SSA registers", "promoting loads"),
    and the code does not do it: the cases of the switch of
    [ElementPromotion::doIt] are empty.  In [lineModule] the element has
    a store and a load after it in the entry block, no [Escape] and no
    [ByrefUse]; the pass returns the module as it was, the load still in
    it and not replaced by the stored value. *)
Lemma promotion_is_not_performed :
  performSILMemoryPromotion lineModule = Some lineModule
  /\ In lineLoad (allInsts lineModule)
  /\ ~ PromotionSoundness lineModule lineModule.
Proof.
  split; [reflexivity|]. split; [simpl; auto 10|].
  intros HP.
  destruct (HP lineFn lineBox IntSIL 0%nat lineBucket line_elementUses
               line_no_escape line_uniqueReachingStore lineLoad) as [Hdel _].
  - simpl. auto.
  - apply Hdel. simpl. auto 10.
Qed.

Lemma promotion_leaves_loads_in_place_witness :
  exists M',
    performSILMemoryPromotion lineModule = Some M'
    /\ In lineLoad (allInsts M')
    /\ In lineBox (allInsts M')
    /\ (forall V, getUses M' V = getUses lineModule V)
    /\ boxUses M' lineBox IntSIL = boxUses lineModule lineBox IntSIL.
Proof.
  apply (promotion_leaves_loads_in_place
           lineModule lineFn lineBox IntSIL 0%nat lineBucket lineLoad).
  - solve_uniquePtrs.
  - exact line_elementUses.
  - exact line_no_escape.
  - exact line_uniqueReachingStore.
  - simpl. auto.
Defined.

(** C2 (initialization detection) is what the pass is documented to do
    ("perform definitive initialization analysis", "checking for
    definitive initialization"), and the code does not do it: the
    [Load] case of [ElementPromotion::doIt] is empty and nothing reports
    a diagnostic.  In [rawModule] the load is reached from the entry with
    no store before it; the pass returns the module as it was, with no
    diagnostic. *)
Lemma uninitialized_load_is_not_diagnosed :
  performSILMemoryPromotion rawModule = Some rawModule
  /\ readBeforeInit rawFn rawAddr rawLoad
  /\ getDiags rawModule = []
  /\ ~ InitializationDetection rawModule rawModule.
Proof.
  split; [reflexivity|]. split; [exact raw_readBeforeInit|]. split; [reflexivity|].
  intros HD.
  destruct (HD rawFn rawBox IntSIL 0%nat rawBucket rawLoad raw_elementUses)
    as [Hcount _].
  - simpl. auto.
  - exact raw_readBeforeInit.
  - discriminate Hcount.
Qed.

Lemma uninitialized_load_is_left_unreported_witness :
  exists M',
    performSILMemoryPromotion rawModule = Some M'
    /\ getDiags M' = getDiags rawModule
    /\ diagnosticsAt M' rawLoad = diagnosticsAt rawModule rawLoad
    /\ In rawLoad (allInsts M')
    /\ (forall V, getUses M' V = getUses rawModule V).
Proof.
  apply (uninitialized_load_is_left_unreported
           rawModule rawFn rawBox IntSIL 0%nat rawBucket rawLoad).
  - solve_uniquePtrs.
  - exact raw_elementUses.
  - simpl. auto.
  - exact raw_readBeforeInit.
Defined.

(** The collector on [usesModule]: both buckets of the pair hold the
    store, the escaping store, the load and the three call uses; the
    [dealloc_stack] is not recorded. *)
Example boxUses_usesModule :
  boxUses usesModule usesBox PairSIL = Some [usesBucket; usesBucket].
Proof. reflexivity. Qed.

Example totalEntries_usesModule :
  totalEntries [usesBucket; usesBucket] = 12
  /\ length (getUses usesModule usesAddr) = 7%nat.
Proof. split; reflexivity. Qed.

(** The driver on [twoBoxModule] unlinks the unused box only. *)
Example performSILMemoryPromotion_twoBoxModule :
  performSILMemoryPromotion twoBoxModule = Some twoBoxResult.
Proof. reflexivity. Qed.

Lemma store_use_classification_witness :
  exists Uses : list ElementUses,
    collectAllocationUses usesModule usesAddr (freshBuckets 2) 0 = Some Uses
    /\ length Uses = 2%nat
    /\ forall Bucket,
        In Bucket Uses ->
        In (usesStoreTo, Store) Bucket
        /\ In (usesStoreOf, Escape) Bucket
        /\ ~ In (usesStoreTo, Escape) Bucket
        /\ ~ In (usesStoreOf, Store) Bucket.
Proof.
  destruct (store_use_classification usesModule usesBox PairSIL)
    as (Uses & HC & HL & H).
  exists Uses. split; [exact HC|]. split; [exact HL|].
  intros Bucket HB.
  destruct (H usesStoreTo usesLit usesAddr Bucket) as (H1 & H2 & _);
    [simpl; auto 10|reflexivity|exact HB|].
  destruct (H usesStoreOf usesAddr usesLit Bucket) as (H3 & H4 & _);
    [simpl; auto 10|reflexivity|exact HB|].
  split; [apply H1; reflexivity|]. split; [apply H4; reflexivity|].
  split; intros HX; [apply H2 in HX|apply H3 in HX]; discriminate HX.
Defined.

Lemma call_use_classification_witness :
  exists Uses : list ElementUses,
    collectAllocationUses usesModule usesAddr (freshBuckets 2) 0 = Some Uses
    /\ length Uses = 2%nat
    /\ forall Bucket,
        In Bucket Uses ->
        In (usesApply, ByrefUse) Bucket
        /\ In (usesApply, Escape) Bucket
        /\ In (usesApplyIndirect, ByrefUse) Bucket
        /\ ~ In (usesApplyIndirect, Escape) Bucket.
Proof.
  destruct (call_use_classification usesModule usesBox PairSIL)
    as (Uses & HC & HL & H).
  exists Uses. split; [exact HC|]. split; [exact HL|].
  intros Bucket HB.
  destruct (H usesApply usesFn [usesAddr; usesLit; usesAddr] Bucket)
    as (H1 & H2 & _);
    [simpl; auto 20|left; reflexivity|reflexivity|reflexivity|exact HB|].
  destruct (H usesApplyIndirect usesFnIndirect [usesAddr] Bucket)
    as (H3 & H4 & _);
    [simpl; auto 20|left; reflexivity|reflexivity|reflexivity|exact HB|].
  split; [|split; [|split]].
  - apply H1. exists 2%nat, usesAddr.
    split; [reflexivity|]. split; [reflexivity|]. right. reflexivity.
  - apply H2. exists 0%nat, usesAddr.
    split; [reflexivity|]. split; [reflexivity|].
    intros [[_ HX]|HX]; discriminate HX.
  - apply H3. exists 0%nat, usesAddr.
    split; [reflexivity|]. split; [reflexivity|]. left. split; reflexivity.
  - intros HX. apply H4 in HX as (P & Arg & HP & _ & HN).
    destruct P as [|P]; [|discriminate HP].
    apply HN. left. split; reflexivity.
Defined.

Lemma promotion_only_erases_dead_boxes_witness :
  performSILMemoryPromotion twoBoxModule = Some (eraseDeadBoxes twoBoxModule)
  /\ (forall J, In J (allInsts (eraseDeadBoxes twoBoxModule)) <->
                In J (allInsts twoBoxModule)
                /\ ~ (is_Some (dyn_cast_AllocBoxInst J)
                      /\ use_empty twoBoxModule J = true))
  /\ (forall V, getUses (eraseDeadBoxes twoBoxModule) V = getUses twoBoxModule V).
Proof.
  apply (promotion_only_erases_dead_boxes twoBoxModule). solve_uniquePtrs.
Defined.

Lemma memory_promotion_idempotent_witness :
  exists M', performSILMemoryPromotion twoBoxModule = Some M'
             /\ performSILMemoryPromotion M' = Some M'.
Proof.
  apply (memory_promotion_idempotent twoBoxModule). solve_uniquePtrs.
Defined.

(** * Further properties of the code *)

(** ** [getNumElements]: how counts compose *)

Lemma zsum_app (l1 l2 : list Z) : zsum (l1 ++ l2) = zsum l1 + zsum l2.
Proof. induction l1 as [|x l1 IH]; simpl; [reflexivity|]. rewrite IH. lia. Qed.

Lemma zsum_cons (x : Z) (l : list Z) : zsum (x :: l) = x + zsum l.
Proof. reflexivity. Qed.

Lemma zsum_Permutation (l1 l2 : list Z) : Permutation l1 l2 -> zsum l1 = zsum l2.
Proof. induction 1; simpl; lia. Qed.

Lemma getNumElements_tuple_wrap Fields M :
  getNumElements (TupleType Fields) M
  = wrap (zsum (map (fun Elt => leafCount Elt M) Fields)).
Proof. now rewrite getNumElements_leafCount, leafCount_tuple. Qed.

(** X1.  Flattening looks through nesting: replacing a tuple component
    that is itself a tuple by its own components, in place, does not
    change the count; so [(a, (b, c))], [((a, b), c)] and [(a, b, c)]
    all count the same.  An inspectable struct counts as the tuple of
    its stored fields: members that are not [VarDecl]s add nothing. *)
Theorem getNumElements_splice (M : SILModule) (Before Inner After : list CanType)
        (Name : string) (Members : list (Decl CanType)) :
  getNumElements (TupleType (Before ++ TupleType Inner :: After)) M
  = getNumElements (TupleType (Before ++ Inner ++ After)) M
  /\ (isAddressOnly M (StructType Name Members) = false ->
      getNumElements (StructType Name Members) M
      = getNumElements (TupleType (storedFieldTypes Members)) M).
Proof.
  split.
  - rewrite !getNumElements_tuple_wrap. f_equal.
    rewrite !map_app, !zsum_app, map_cons, zsum_cons, leafCount_tuple. lia.
  - intros HA. rewrite getNumElements_struct by assumption.
    now rewrite getNumElements_tuple.
Qed.

Lemma getNumElements_splice_witness :
  getNumElements (TupleType ([IntTy] ++ TupleType [IntTy; IntTy] :: [])) emptyModule
  = getNumElements (TupleType ([IntTy] ++ [IntTy; IntTy] ++ [])) emptyModule
  /\ getNumElements PointTy emptyModule
     = getNumElements (TupleType [IntTy; PairTy]) emptyModule.
Proof.
  destruct (getNumElements_splice emptyModule [IntTy] [IntTy; IntTy] []
              "Point" [VarDecl IntTy; OtherDecl "init"; VarDecl PairTy])
    as [H1 H2].
  split; [exact H1|]. apply H2. reflexivity.
Defined.

(** X2.  The count does not depend on the order of the components of a
    tuple: the accumulator adds modulo [2^32], which is commutative. *)
Theorem getNumElements_permutation (M : SILModule) (Fields Fields' : list CanType) :
  Permutation Fields Fields' ->
  getNumElements (TupleType Fields) M = getNumElements (TupleType Fields') M.
Proof.
  intros HP. rewrite !getNumElements_tuple_wrap. f_equal.
  apply zsum_Permutation. now apply Permutation_map.
Qed.

Lemma getNumElements_permutation_witness :
  getNumElements (TupleType [IntTy; PairTy]) emptyModule
  = getNumElements (TupleType [PairTy; IntTy]) emptyModule.
Proof.
  apply (getNumElements_permutation emptyModule [IntTy; PairTy] [PairTy; IntTy]).
  apply perm_swap.
Defined.

(** ** [addElementUses]: bucket bounds *)

Lemma lookup_appendToSpan BaseElt e Es (Uses : list ElementUses) (k : nat) Bucket :
  Uses !! k = Some Bucket ->
  appendToSpan BaseElt e Es Uses !! k
  = Some (if bool_decide (BaseElt <= Z.of_nat k < BaseElt + e)
          then Bucket ++ Es else Bucket).
Proof.
  intros Hk. unfold appendToSpan. rewrite list_lookup_imap, Hk. reflexivity.
Qed.

(** X3.  When the span [BaseElt .. BaseElt + e - 1] of the use's type
    lies inside the bucket array, [addElementUses] succeeds, keeps the
    number of buckets, appends the entry at the end of each bucket of
    the span, and leaves every other bucket as it was. *)
Theorem addElementUses_in_range (M : SILModule) (Uses : list ElementUses)
        (BaseElt : Z) (UseTy : SILType) (User : SILInstruction) (Kind : UseKind) :
  let e := getNumElements (getSwiftRValueType UseTy) M in
  0 <= BaseElt ->
  BaseElt + e <= Z.of_nat (length Uses) ->
  BaseElt + e < UINT_MOD ->
  exists Uses',
    addElementUses M Uses BaseElt UseTy User Kind = Some Uses'
    /\ length Uses' = length Uses
    /\ forall (k : nat) Bucket,
        Uses !! k = Some Bucket ->
        Uses' !! k
        = Some (if bool_decide (BaseElt <= Z.of_nat k < BaseElt + e)
                then Bucket ++ [(User, Kind)] else Bucket).
Proof.
  intros e HB Hlen Hmod. eexists.
  split; [now apply addElementUses_spec|].
  split; [apply length_appendToSpan|].
  intros k Bucket Hk. now apply lookup_appendToSpan.
Qed.

Lemma addElementUses_in_range_witness :
  exists Uses',
    addElementUses emptyModule [[]; []; []] 1 (mkSILType PairTy false)
                   usesLoad Load = Some Uses'
    /\ length Uses' = 3%nat
    /\ forall (k : nat) Bucket,
        [[]; []; []] !! k = Some Bucket ->
        Uses' !! k
        = Some (if bool_decide (1 <= Z.of_nat k < 1 + 2)
                then Bucket ++ [(usesLoad, Load)] else Bucket).
Proof.
  apply (addElementUses_in_range emptyModule [[]; []; []] 1
           (mkSILType PairTy false) usesLoad Load); vm_compute; congruence.
Defined.

Lemma addElementUses_loop_overrun Trips : forall i (Uses : list ElementUses)
                                                BaseElt User Kind,
  0 <= BaseElt -> 0 <= i ->
  (0 < Trips)%nat ->
  BaseElt + i + Z.of_nat Trips < UINT_MOD ->
  Z.of_nat (length Uses) < BaseElt + i + Z.of_nat Trips ->
  addElementUses_loop Trips i Uses BaseElt User Kind = None.
Proof.
  induction Trips as [|Trips IH]; intros i Uses BaseElt User Kind HB Hi HT Hmod Hlen;
    [lia|].
  simpl. unfold push_back_at. rewrite (wrap_small (BaseElt + i)) by lia.
  destruct (Uses !! Z.to_nat (BaseElt + i)) as [Bucket|] eqn:Hk; [|reflexivity].
  simpl. apply lookup_lt_Some in Hk.
  rewrite (wrap_small (i + 1)) by lia.
  apply IH; rewrite ?length_insert; lia.
Qed.

Lemma addElementUses_out_of_range_aux (M : SILModule) (Uses : list ElementUses)
      (BaseElt : Z) (UseTy : SILType) (User : SILInstruction) (Kind : UseKind) :
  let e := getNumElements (getSwiftRValueType UseTy) M in
  (e = 0 -> addElementUses M Uses BaseElt UseTy User Kind = Some Uses)
  /\ (0 < e ->
      0 <= BaseElt ->
      BaseElt + e < UINT_MOD ->
      Z.of_nat (length Uses) < BaseElt + e ->
      addElementUses M Uses BaseElt UseTy User Kind = None).
Proof.
  intros e. unfold addElementUses. fold e. split.
  - intros ->. reflexivity.
  - intros He HB Hmod Hlen. apply addElementUses_loop_overrun; lia.
Qed.

(** X4.  When the type of the use has at least one element and its span
    runs past the end of the bucket array, [addElementUses] fails: the
    bounds assertion of the bucket vector fires.  A type that has no
    element touches no bucket and cannot fail. *)
Theorem addElementUses_out_of_range (M : SILModule) (Uses : list ElementUses)
        (BaseElt : Z) (UseTy : SILType) (User : SILInstruction) (Kind : UseKind) :
  let e := getNumElements (getSwiftRValueType UseTy) M in
  (e = 0 -> addElementUses M Uses BaseElt UseTy User Kind = Some Uses)
  /\ (0 < e ->
      0 <= BaseElt ->
      BaseElt + e < UINT_MOD ->
      Z.of_nat (length Uses) < BaseElt + e ->
      addElementUses M Uses BaseElt UseTy User Kind = None).
Proof. apply addElementUses_out_of_range_aux. Qed.

Lemma addElementUses_out_of_range_witness :
  addElementUses emptyModule [[]] 0 (mkSILType VoidTy false) usesLoad Load
  = Some [[]]
  /\ addElementUses emptyModule [[]] 0 (mkSILType PairTy false) usesLoad Load
     = None.
Proof.
  split.
  - apply (proj1 (addElementUses_out_of_range emptyModule [[]] 0
                    (mkSILType VoidTy false) usesLoad Load)). reflexivity.
  - apply (proj2 (addElementUses_out_of_range emptyModule [[]] 0
                    (mkSILType PairTy false) usesLoad Load));
      vm_compute; congruence.
Defined.

(** ** [collectAllocationUses]: any base element, any buckets *)

Lemma recordedUses_users M (UIs : list Operand) :
  map fst (omap (recordedUse M) UIs)
  = map getUser (List.filter (fun UI => negb (isIgnoredUser (getUser UI))) UIs).
Proof.
  induction UIs as [|UI Rest IH]; [reflexivity|].
  simpl. unfold recordedUse at 1.
  destruct (recordedKind M UI) as [Kind|] eqn:HK; simpl.
  - destruct (isIgnoredUser (getUser UI)) eqn:HI.
    + apply (proj2 (recordedKind_None M UI)) in HI. congruence.
    + simpl. f_equal. exact IH.
  - apply recordedKind_None in HK. rewrite HK. simpl. exact IH.
Qed.

(** X5.  Called on an address with a base element and a bucket array
    that holds the span of the pointee type, [collectAllocationUses]
    succeeds and only appends: the number of buckets is kept, every
    bucket of the span receives the same new entries after the ones it
    had, every bucket outside the span is untouched, and the new
    entries name, in use-list order, the users of the uses that are not
    ignored bookkeeping instructions. *)
Theorem collectAllocationUses_appends_in_span
        (M : SILModule) (Pointer : SILValue) (Uses : list ElementUses)
        (BaseElt : Z) :
  let e := getNumElements (getSwiftRValueType (getType Pointer)) M in
  isAddress (getType Pointer) = true ->
  0 <= BaseElt ->
  BaseElt + e <= Z.of_nat (length Uses) ->
  BaseElt + e < UINT_MOD ->
  exists Uses' Es,
    collectAllocationUses M Pointer Uses BaseElt = Some Uses'
    /\ length Uses' = length Uses
    /\ (forall (k : nat) Bucket,
           Uses !! k = Some Bucket ->
           Uses' !! k
           = Some (if bool_decide (BaseElt <= Z.of_nat k < BaseElt + e)
                   then Bucket ++ Es else Bucket))
    /\ map fst Es
       = map getUser
           (List.filter (fun UI => negb (isIgnoredUser (getUser UI)))
                        (getUses M Pointer)).
Proof.
  intros e HA HB Hlen Hmod.
  exists (appendToSpan BaseElt e (omap (recordedUse M) (getUses M Pointer)) Uses),
         (omap (recordedUse M) (getUses M Pointer)).
  split.
  - unfold collectAllocationUses. rewrite HA. simpl.
    now apply collectUses_spec.
  - split; [apply length_appendToSpan|]. split.
    + intros k Bucket Hk. now apply lookup_appendToSpan.
    + apply recordedUses_users.
Qed.

Lemma collectAllocationUses_appends_in_span_witness :
  exists Uses' Es,
    collectAllocationUses usesModule usesAddr
      [[(usesLoad, Load)]; []; [(usesLoad, Load)]] 1 = Some Uses'
    /\ length Uses' = 3%nat
    /\ (forall (k : nat) Bucket,
           [[(usesLoad, Load)]; []; [(usesLoad, Load)]] !! k = Some Bucket ->
           Uses' !! k
           = Some (if bool_decide (1 <= Z.of_nat k < 1 + 2)
                   then Bucket ++ Es else Bucket))
    /\ map fst Es
       = [usesStoreTo; usesStoreOf; usesLoad; usesApply; usesApply;
          usesApplyIndirect].
Proof.
  apply (collectAllocationUses_appends_in_span usesModule usesAddr
           [[(usesLoad, Load)]; []; [(usesLoad, Load)]] 1);
    vm_compute; congruence.
Defined.

Lemma collectUses_ignored M PointeeType BaseElt (UIs : list Operand) :
  forall Uses : list ElementUses,
  (forall UI, In UI UIs -> isIgnoredUser (getUser UI) = true) ->
  collectUses M PointeeType BaseElt Uses UIs = Some Uses.
Proof.
  induction UIs as [|UI Rest IH]; intros Uses HI; simpl; [reflexivity|].
  rewrite collectUse_recorded.
  rewrite (proj2 (recordedKind_None M UI)) by (apply HI; now left).
  simpl. apply IH. intros; apply HI. now right.
Qed.

Lemma collectUses_overrun M PointeeType BaseElt (UIs : list Operand) :
  forall Uses : list ElementUses,
  let e := getNumElements (getSwiftRValueType PointeeType) M in
  0 < e -> 0 <= BaseElt -> BaseElt + e < UINT_MOD ->
  Z.of_nat (length Uses) < BaseElt + e ->
  (exists UI, In UI UIs /\ isIgnoredUser (getUser UI) = false) ->
  collectUses M PointeeType BaseElt Uses UIs = None.
Proof.
  induction UIs as [|UI Rest IH]; intros Uses e He HB Hmod Hlen (UI0 & HIn & HI0).
  - destruct HIn.
  - simpl. rewrite collectUse_recorded.
    destruct (recordedKind M UI) as [Kind|] eqn:HK.
    + rewrite (proj2 (addElementUses_out_of_range_aux M Uses BaseElt PointeeType
                        (getUser UI) Kind)); [reflexivity|assumption..].
    + simpl. apply IH; try assumption.
      destruct HIn as [->|HIn]; [|eauto].
      apply recordedKind_None in HK. congruence.
Qed.

(** X6.  Edge cases of [collectAllocationUses].  A pointer whose type is
    not an address trips the assertion at the top.  An address all of
    whose uses are ignored bookkeeping instructions (or that has no use)
    leaves the buckets exactly as they were, whatever their number.  If
    the span of the pointee type runs past the end of the bucket array,
    the first use that is not ignored trips the bounds assertion. *)
Theorem collectAllocationUses_edge_cases
        (M : SILModule) (Pointer : SILValue) (Uses : list ElementUses)
        (BaseElt : Z) :
  let e := getNumElements (getSwiftRValueType (getType Pointer)) M in
  (isAddress (getType Pointer) = false ->
   collectAllocationUses M Pointer Uses BaseElt = None)
  /\ (isAddress (getType Pointer) = true ->
      (forall UI, In UI (getUses M Pointer) -> isIgnoredUser (getUser UI) = true) ->
      collectAllocationUses M Pointer Uses BaseElt = Some Uses)
  /\ (isAddress (getType Pointer) = true ->
      0 < e -> 0 <= BaseElt -> BaseElt + e < UINT_MOD ->
      Z.of_nat (length Uses) < BaseElt + e ->
      (exists UI, In UI (getUses M Pointer) /\ isIgnoredUser (getUser UI) = false) ->
      collectAllocationUses M Pointer Uses BaseElt = None).
Proof.
  intros e. unfold collectAllocationUses. split; [|split].
  - intros ->. reflexivity.
  - intros -> HI. simpl. now apply collectUses_ignored.
  - intros -> He HB Hmod Hlen HU. simpl. now apply collectUses_overrun.
Qed.

Lemma collectAllocationUses_edge_cases_witness :
  collectAllocationUses usesModule usesLit [[]; []] 0 = None
  /\ collectAllocationUses twoBoxModule (boxAddress deadBox IntSIL)
       [[(usesLoad, Load)]] 5 = Some [[(usesLoad, Load)]]
  /\ collectAllocationUses usesModule usesAddr [[]] 0 = None.
Proof.
  split; [|split].
  - apply (proj1 (collectAllocationUses_edge_cases usesModule usesLit [[]; []] 0)).
    reflexivity.
  - apply (proj1 (proj2 (collectAllocationUses_edge_cases twoBoxModule
                           (boxAddress deadBox IntSIL) [[(usesLoad, Load)]] 5))).
    + reflexivity.
    + intros UI HIn. destruct HIn.
  - apply (proj2 (proj2 (collectAllocationUses_edge_cases
                           usesModule usesAddr [[]] 0)));
      try (vm_compute; congruence).
    exists (mkOperand usesLoad 0). split; [simpl; auto 10|reflexivity].
Defined.

(** ** The kinds the collector gives to loads and to other instructions *)

Lemma recordedKind_load M UI Op :
  getKind (getUser UI) = LoadInst Op -> recordedKind M UI = Some Load.
Proof.
  intros HK. unfold recordedKind, isIgnoredUser, isa_DeallocStackInst, isa_RetainInst,
    isa_ReleaseInst, isa_DeallocRefInst, isa_LoadInst.
  now rewrite HK.
Qed.

Lemma recordedKind_default M UI :
  isIgnoredUser (getUser UI) = false ->
  isa_LoadInst (getUser UI) = false ->
  isa_StoreInst (getUser UI) = false ->
  isa_FunctionInst (getUser UI) = false ->
  recordedKind M UI = Some Escape.
Proof.
  intros H1 H2 H3 H4. unfold recordedKind. rewrite H1, H2, H3. simpl.
  unfold isa_FunctionInst in H4.
  destruct (getKind (getUser UI)); try reflexivity; discriminate.
Qed.

(** X7.  In the buckets collected for an allocation, a load instruction
    has a [Load] entry, in the bucket of every element, exactly when it
    reads through the allocation's address (also when the loaded type
    is an aggregate), and it is never recorded under another kind. *)
Theorem load_use_classification (M : SILModule) (ABI : SILInstruction)
        (ElementType : SILType) :
  let Pointer := boxAddress ABI ElementType in
  let span := getNumElements (getSwiftRValueType ElementType) M in
  exists Uses : list ElementUses,
    collectAllocationUses M Pointer (freshBuckets span) 0 = Some Uses
    /\ length Uses = Z.to_nat span
    /\ forall User Op Bucket,
        In User (allInsts M) ->
        getKind User = LoadInst Op ->
        In Bucket Uses ->
        (In (User, Load) Bucket <-> sameValue Pointer Op = true)
        /\ ~ In (User, Store) Bucket
        /\ ~ In (User, ByrefUse) Bucket
        /\ ~ In (User, Escape) Bucket.
Proof.
  intros Pointer span. subst Pointer span.
  eexists. split; [apply collectAllocationUses_box|].
  split; [apply length_replicate|].
  intros User Op Bucket HIn HK HB.
  pose proof (fun Kind => in_box_bucket M ABI ElementType Bucket User Kind HB) as Hin.
  assert (Hkind : forall k, recordedKind M (mkOperand User (Z.of_nat k)) = Some Load).
  { intros k. now apply (recordedKind_load M (mkOperand User (Z.of_nat k)) Op). }
  assert (Hops : getAllOperands User = [Op])
    by (unfold getAllOperands; now rewrite HK).
  split; [split|].
  - intros H. apply Hin in H as (k & Op' & _ & Hk & HS & _).
    rewrite Hops in Hk. destruct k as [|k]; simpl in Hk; [|discriminate]. congruence.
  - intros HS. apply Hin. exists 0%nat, Op. rewrite Hops, Hkind. auto.
  - repeat split; intros H; apply Hin in H as (k & Op' & _ & _ & _ & HR);
      rewrite Hkind in HR; discriminate.
Qed.

Lemma load_use_classification_witness :
  exists Uses : list ElementUses,
    collectAllocationUses usesModule usesAddr (freshBuckets 2) 0 = Some Uses
    /\ length Uses = 2%nat
    /\ forall Bucket,
        In Bucket Uses ->
        In (usesLoad, Load) Bucket /\ ~ In (usesLoad, Escape) Bucket.
Proof.
  destruct (load_use_classification usesModule usesBox PairSIL)
    as (Uses & HC & HL & H).
  exists Uses. split; [exact HC|]. split; [exact HL|].
  intros Bucket HB.
  destruct (H usesLoad usesAddr Bucket) as (H1 & _ & _ & H2);
    [simpl; auto 10|reflexivity|exact HB|].
  split; [apply H1; reflexivity|exact H2].
Defined.

(** X8.  The default case.  An instruction that is not an ignored
    bookkeeping instruction, a load, a store or a call has an [Escape]
    entry, in the bucket of every element, exactly when one of its
    operands is the allocation's address, and is never recorded under
    another kind: a use the collector does not recognise escapes. *)
Theorem unrecognized_use_escapes (M : SILModule) (ABI : SILInstruction)
        (ElementType : SILType) :
  let Pointer := boxAddress ABI ElementType in
  let span := getNumElements (getSwiftRValueType ElementType) M in
  exists Uses : list ElementUses,
    collectAllocationUses M Pointer (freshBuckets span) 0 = Some Uses
    /\ length Uses = Z.to_nat span
    /\ forall User Bucket,
        In User (allInsts M) ->
        isIgnoredUser User = false ->
        isa_LoadInst User = false ->
        isa_StoreInst User = false ->
        isa_FunctionInst User = false ->
        In Bucket Uses ->
        (In (User, Escape) Bucket <->
         exists Op, In Op (getAllOperands User) /\ sameValue Pointer Op = true)
        /\ ~ In (User, Load) Bucket
        /\ ~ In (User, Store) Bucket
        /\ ~ In (User, ByrefUse) Bucket.
Proof.
  intros Pointer span. subst Pointer span.
  eexists. split; [apply collectAllocationUses_box|].
  split; [apply length_replicate|].
  intros User Bucket HIn H1 H2 H3 H4 HB.
  pose proof (fun Kind => in_box_bucket M ABI ElementType Bucket User Kind HB) as Hin.
  assert (Hkind : forall k, recordedKind M (mkOperand User (Z.of_nat k)) = Some Escape).
  { intros k. now apply recordedKind_default. }
  split; [split|].
  - intros H. apply Hin in H as (k & Op & _ & Hk & HS & _).
    exists Op. split; [|assumption].
    apply list_elem_of_In. eapply list_elem_of_lookup_2. exact Hk.
  - intros (Op & HOp & HS). apply Hin.
    apply list_elem_of_In, list_elem_of_lookup_1 in HOp as [k Hk].
    exists k, Op. rewrite Hkind. auto.
  - repeat split; intros H; apply Hin in H as (k & Op' & _ & _ & _ & HR);
      rewrite Hkind in HR; discriminate.
Qed.

Lemma unrecognized_use_escapes_witness :
  exists Uses : list ElementUses,
    collectAllocationUses projModule projAddr (freshBuckets 2) 0 = Some Uses
    /\ length Uses = 2%nat
    /\ forall Bucket,
        In Bucket Uses ->
        In (projElementAddr, Escape) Bucket /\ ~ In (projReturn, Escape) Bucket.
Proof.
  destruct (unrecognized_use_escapes projModule projBox PairSIL)
    as (Uses & HC & HL & H).
  exists Uses. split; [exact HC|]. split; [exact HL|].
  intros Bucket HB.
  destruct (H projElementAddr Bucket) as (H1 & _);
    [simpl; auto|reflexivity..|exact HB|].
  destruct (H projReturn Bucket) as (H2 & _);
    [simpl; auto|reflexivity..|exact HB|].
  split.
  - apply H1. exists projAddr. split; [simpl; auto|reflexivity].
  - intros HX. apply H2 in HX as (Op & [<-|[]] & HS). discriminate HS.
Defined.

(** ** A call that uses the address as its callee *)



(** ** [optimizeAllocBox] *)

(** X10.  [optimizeAllocBox] trips no assertion and mutates nothing: the
    buckets it sizes with [getNumElements] always hold the span of
    every use it records, and constructing and running the promotion of
    each element leaves the module as it was. *)
Theorem optimizeAllocBox_never_fails (M : SILModule) (ABI : SILInstruction)
        (ElementType : SILType) :
  optimizeAllocBox M ABI ElementType = Some M.
Proof. apply optimizeAllocBox_total. Qed.

(** X11.  A box whose element type flattens to no element (the empty
    tuple, a struct with no stored field) gets an empty bucket array:
    none of the uses of its address is recorded, not even an escape. *)
Theorem zero_element_box_records_nothing (M : SILModule) (ABI : SILInstruction)
        (ElementType : SILType) :
  getNumElements (getSwiftRValueType ElementType) M = 0 ->
  collectAllocationUses M (boxAddress ABI ElementType)
    (freshBuckets (getNumElements (getSwiftRValueType ElementType) M)) 0
  = Some [].
Proof.
  intros H0. rewrite collectAllocationUses_box, H0. reflexivity.
Qed.

Lemma zero_element_box_records_nothing_witness :
  In (mkOperand voidApply 1) (getUses voidModule voidAddr)
  /\ collectAllocationUses voidModule voidAddr
       (freshBuckets (getNumElements VoidTy voidModule)) 0
     = Some [].
Proof.
  split; [simpl; auto|].
  apply (zero_element_box_records_nothing voidModule voidBox VoidSIL).
  reflexivity.
Defined.

(** ** The constructor of [ElementPromotion] *)

Lemma ElementPromotion_new_flag ABI (Uses : ElementUses) PBI :
  EP_HasAnyEscape (ElementPromotion_new ABI Uses PBI)
  = negb (Nat.eqb (length (escapeBlocks Uses)) 0).
Proof. unfold ElementPromotion_new. now rewrite seed_fold_flag. Qed.

(** X12.  The result of the constructor does not depend on the order in
    which the uses are listed, on the allocation, or on what the shared
    map held before: two use lists that are permutations of each other
    give the same per-block map and the same [HasAnyEscape]. *)
Theorem ElementPromotion_order_independent
        (ABI ABI' : SILInstruction) (Uses Uses' : ElementUses)
        (PBI PBI' : gmap BlockID LiveOutBlockState) :
  Permutation Uses Uses' ->
  EP_PerBlockInfo (ElementPromotion_new ABI Uses PBI)
  = EP_PerBlockInfo (ElementPromotion_new ABI' Uses' PBI')
  /\ EP_HasAnyEscape (ElementPromotion_new ABI Uses PBI)
     = EP_HasAnyEscape (ElementPromotion_new ABI' Uses' PBI').
Proof.
  intros HP.
  assert (HE : escapeBlocks Uses ≡ₚ escapeBlocks Uses')
    by (unfold escapeBlocks; now rewrite HP).
  split.
  - apply map_eq. intros B. rewrite !ElementPromotion_new_lookup.
    destruct (decide (B ∈ escapeBlocks Uses)) as [H1|H1];
      destruct (decide (B ∈ escapeBlocks Uses')) as [H2|H2]; try reflexivity.
    + rewrite HE in H1. contradiction.
    + rewrite <- HE in H2. contradiction.
  - rewrite !ElementPromotion_new_flag. now rewrite (Permutation_length HE).
Qed.

Lemma ElementPromotion_order_independent_witness :
  EP_PerBlockInfo (ElementPromotion_new usesBox usesBucket ∅)
  = EP_PerBlockInfo (ElementPromotion_new usesBox (rev usesBucket) ∅)
  /\ EP_HasAnyEscape (ElementPromotion_new usesBox usesBucket ∅)
     = EP_HasAnyEscape (ElementPromotion_new usesBox (rev usesBucket) ∅).
Proof.
  apply (ElementPromotion_order_independent usesBox usesBox
           usesBucket (rev usesBucket) ∅ ∅).
  apply Permutation_rev.
Defined.

(** X13.  The two results of the constructor agree: [HasAnyEscape] is
    set exactly when the per-block map has an entry, and every entry of
    the map records [EscapeKind::Yes]. *)
Theorem ElementPromotion_flag_agrees_with_map
        (ABI : SILInstruction) (Uses : ElementUses)
        (PBI : gmap BlockID LiveOutBlockState) :
  let EP := ElementPromotion_new ABI Uses PBI in
  (EP_HasAnyEscape EP = true <-> EP_PerBlockInfo EP <> ∅)
  /\ (forall B S, EP_PerBlockInfo EP !! B = Some S -> EscapeInfo S = EscapeKind.Yes).
Proof.
  intros EP. subst EP. split.
  - rewrite ElementPromotion_new_flag.
    destruct (escapeBlocks Uses) as [|B0 Bs] eqn:HE; simpl.
    + split; [discriminate|]. intros HN. exfalso. apply HN.
      apply map_eq. intros B. rewrite ElementPromotion_new_lookup, HE, lookup_empty.
      destruct (decide (B ∈ [])) as [H|_]; [|reflexivity].
      now apply elem_of_nil in H.
    + split; [|reflexivity]. intros _ HN.
      assert (HL : EP_PerBlockInfo (ElementPromotion_new ABI Uses PBI) !! B0
                   = Some (mkLiveOut EscapeKind.Yes)).
      { rewrite ElementPromotion_new_lookup, HE.
        rewrite decide_True by (apply elem_of_cons; now left). reflexivity. }
      rewrite HN, lookup_empty in HL. discriminate.
  - intros B S. rewrite ElementPromotion_new_lookup.
    destruct (decide _); [|discriminate]. now intros [= <-].
Qed.

(** ** The driver *)

Lemma filter_eq_all {A} (P : A -> bool) (l : list A) :
  List.filter P l = l -> forall x, In x l -> P x = true.
Proof.
  intros HF x Hx. rewrite <- HF in Hx. now apply filter_In in Hx.
Qed.

(** X14.  The pass returns the module it was given exactly when no
    [alloc_box] of the module is without a use. *)
Theorem promotion_is_identity_iff_no_dead_box (M : SILModule) :
  uniquePtrs M ->
  performSILMemoryPromotion M = Some M <->
  forall J, In J (allInsts M) -> isDeadBox M J = false.
Proof.
  intros HU. rewrite performSILMemoryPromotion_spec by assumption. split.
  - intros [= HM] J HJ.
    assert (HF : List.filter (fun J => negb (isDeadBox M J)) (allInsts M)
                 = allInsts M)
      by (rewrite <- allInsts_eraseDeadBoxes; now rewrite HM).
    apply negb_true_iff. now apply (filter_eq_all _ _ HF).
  - intros HD. f_equal. rewrite <- erasePtrs_deadBoxes by assumption.
    unfold deadBoxes. rewrite filter_none by assumption. apply erasePtrs_nil.
Qed.

Lemma promotion_is_identity_iff_no_dead_box_witness :
  (performSILMemoryPromotion lineModule = Some lineModule <->
   forall J, In J (allInsts lineModule) -> isDeadBox lineModule J = false)
  /\ performSILMemoryPromotion lineModule = Some lineModule
  /\ performSILMemoryPromotion twoBoxModule <> Some twoBoxModule.
Proof.
  assert (HL : uniquePtrs lineModule) by solve_uniquePtrs.
  assert (HT : uniquePtrs twoBoxModule) by solve_uniquePtrs.
  split; [exact (promotion_is_identity_iff_no_dead_box lineModule HL)|].
  split; [reflexivity|].
  intros HX.
  pose proof (proj1 (promotion_is_identity_iff_no_dead_box twoBoxModule HT) HX)
    as HN.
  assert (HD : isDeadBox twoBoxModule deadBox = false)
    by (apply HN; simpl; auto).
  vm_compute in HD. discriminate HD.
Defined.

(** X15.  After a run every [alloc_box] left in the module has a use in
    the module that is returned, and instruction objects are still
    distinct: the result is a module on which the pass has nothing to
    erase. *)
Theorem promotion_leaves_no_dead_box (M : SILModule) :
  uniquePtrs M ->
  exists M',
    performSILMemoryPromotion M = Some M'
    /\ uniquePtrs M'
    /\ forall J ElementType,
        In J (allInsts M') ->
        dyn_cast_AllocBoxInst J = Some ElementType ->
        use_empty M' J = false.
Proof.
  intros HU. exists (eraseDeadBoxes M).
  split; [now apply performSILMemoryPromotion_spec|].
  split; [now apply uniquePtrs_eraseDeadBoxes|].
  intros J ElementType HJ HD.
  apply in_allInsts_eraseDeadBoxes in HJ as [_ HJ].
  rewrite <- (isDeadBox_eraseDeadBoxes M J HU) in HJ.
  unfold isDeadBox in HJ. now rewrite HD in HJ.
Qed.

Lemma promotion_leaves_no_dead_box_witness :
  exists M',
    performSILMemoryPromotion twoBoxModule = Some M'
    /\ uniquePtrs M'
    /\ forall J ElementType,
        In J (allInsts M') ->
        dyn_cast_AllocBoxInst J = Some ElementType ->
        use_empty M' J = false.
Proof.
  apply (promotion_leaves_no_dead_box twoBoxModule). solve_uniquePtrs.
Defined.
